(** * SHA-256 (src/sha-256.py): a shallow embedding and its properties

    Python integers are unbounded, so every integer of the program is a [Z]
    and the masks [& 0xFFFFFFFF] of the source are written out.  A [bytes]
    object is a [list byte], a Python list a [list], a [str] a [string].
    Built-in operations that can raise ([int.to_bytes], indexing, iterating
    over [None]) return in the error monad [result]. *)

From Stdlib Require Import ZArith Lia List Strings.Byte Ascii String Bool.
From stdpp Require Import base list.

Local Open Scope Z_scope.

(** ** Exceptions and the error monad *)

Inductive exn : Type :=
| OverflowError   (* int.to_bytes: the integer does not fit *)
| IndexError      (* list index out of range *)
| TypeError       (* iterating over None *)
| ValueError      (* unpacking a list of the wrong length *)
| LoopFuel.       (* not a Python exception: the model's while loop ran out of fuel *)

Inductive result (A : Type) : Type :=
| Ok (a : A)
| Raise (e : exn).
Arguments Ok {A} a.
Arguments Raise {A} e.

#[global] Instance result_bind : MBind result :=
  fun A B (k : A -> result B) (m : result A) =>
    match m with
    | Ok a => k a
    | Raise e => Raise e
    end.

(** [l[i]] for a non-negative index: [IndexError] past the end. *)
Definition index {A : Type} (l : list A) (i : nat) : result A :=
  match l !! i with
  | Some x => Ok x
  | None => Raise IndexError
  end.

(** ** Bit operations (source lines 6-56) *)

Definition mask32 : Z := 0xFFFFFFFF.

(** [(x >> n) | (x << (32 - n)) & 0xFFFFFFFF]: in Python [&] binds tighter
    than [|], so the mask applies to the left-shifted part only.  The source
    calls [rotr] and [shr] with literal counts between 2 and 25.  Python
    raises [ValueError] on a negative shift count, that is for [rotr] on a
    count below 0 or above 32 and for [shr] on a count below 0, which no call
    of the program produces: these definitions stand for the source on counts
    from 0 to 32 only, and every statement about them keeps to that range. *)
Definition rotr (x n : Z) : Z :=
  Z.lor (Z.shiftr x n) (Z.land (Z.shiftl x (32 - n)) mask32).

Definition shr (x n : Z) : Z := Z.shiftr x n.

Definition ch (x y z : Z) : Z :=
  Z.lxor (Z.land x y) (Z.land (Z.lnot x) z).

Definition maj (x y z : Z) : Z :=
  Z.lxor (Z.lxor (Z.land x y) (Z.land x z)) (Z.land y z).

Definition sigma0_256 (x : Z) : Z :=
  Z.lxor (Z.lxor (rotr x 2) (rotr x 13)) (rotr x 22).

Definition sigma1_256 (x : Z) : Z :=
  Z.lxor (Z.lxor (rotr x 6) (rotr x 11)) (rotr x 25).

Definition sigma0_256_small (x : Z) : Z :=
  Z.lxor (Z.lxor (rotr x 7) (rotr x 18)) (shr x 3).

Definition sigma1_256_small (x : Z) : Z :=
  Z.lxor (Z.lxor (rotr x 17) (rotr x 19)) (shr x 10).

(** A Word of the specification: an unsigned 32-bit integer. *)
Definition word (x : Z) : Prop := 0 <= x < 2 ^ 32.

(** ** Constants (source lines 59-68 and 105-108) *)

(** The table [K_256], one segment for each line of the source. *)
Definition K_256 : list Z := Eval cbv [app] in
  [0x428a2f98; 0x71374491; 0xb5c0fbcf; 0xe9b5dba5; 0x3956c25b; 0x59f111f1; 0x923f82a4; 0xab1c5ed5]
  ++ [0xd807aa98; 0x12835b01; 0x243185be; 0x550c7dc3; 0x72be5d74; 0x80deb1fe; 0x9bdc06a7; 0xc19bf174]
  ++ [0xe49b69c1; 0xefbe4786; 0x0fc19dc6; 0x240ca1cc; 0x2de92c6f; 0x4a7484aa; 0x5cb0a9dc; 0x76f988da]
  ++ [0x983e5152; 0xa831c66d; 0xb00327c8; 0xbf597fc7; 0xc6e00bf3; 0xd5a79147; 0x06ca6351; 0x14292967]
  ++ [0x27b70a85; 0x2e1b2138; 0x4d2c6dfc; 0x53380d13; 0x650a7354; 0x766a0abb; 0x81c2c92e; 0x92722c85]
  ++ [0xa2bfe8a1; 0xa81a664b; 0xc24b8b70; 0xc76c51a3; 0xd192e819; 0xd6990624; 0xf40e3585; 0x106aa070]
  ++ [0x19a4c116; 0x1e376c08; 0x2748774c; 0x34b0bcb5; 0x391c0cb3; 0x4ed8aa4a; 0x5b9cca4f; 0x682e6ff3]
  ++ [0x748f82ee; 0x78a5636f; 0x84c87814; 0x8cc70208; 0x90befffa; 0xa4506ceb; 0xbef9a3f7; 0xc67178f2].

(** The list bound to [h] at the start of [sha256_hash_computation]. *)
Definition h_initial : list Z :=
  [ 0x6a09e667; 0xbb67ae85; 0x3c6ef372; 0xa54ff53a;
    0x510e527f; 0x9b05688c; 0x1f83d9ab; 0x5be0cd19 ].

(** ** Python built-ins used by the program *)

(** [len(l)] as a Python integer. *)
Definition len {A : Type} (l : list A) : Z := Z.of_nat (length l).

Definition byte_val (b : byte) : Z := Z.of_N (Byte.to_N b).

Definition byte_of (z : Z) : byte :=
  match Byte.of_N (Z.to_N (z mod 256)) with
  | Some b => b
  | None => x00
  end.

(** [x.to_bytes(n, 'big')]: raises [OverflowError] on a negative integer and
    on one that needs more than [n] bytes. *)
Definition to_bytes (x : Z) (n : nat) : result (list byte) :=
  if (x <? 0) || (256 ^ Z.of_nat n <=? x) then Raise OverflowError
  else Ok (map (fun i => byte_of (Z.shiftr x (8 * Z.of_nat (n - 1 - i)))) (seq 0 n)).

(** [int.from_bytes(bs, 'big')]; the empty byte string gives 0. *)
Definition from_bytes (bs : list byte) : Z :=
  fold_left (fun acc b => acc * 256 + byte_val b) bs 0.

(** [l[i:j]] for [0 <= i <= j]: a slice is clipped to the list, it never raises. *)
Definition slice {A : Type} (l : list A) (i j : nat) : list A :=
  take (j - i) (drop i l).

(** [range(start, stop, step)] for a positive [step]. *)
Definition range (start stop step : nat) : list nat :=
  map (fun k => (start + k * step)%nat)
      (seq 0 ((stop - start + (step - 1)) / step)%nat).

(** [while cond: body].  The loop is cut after [fuel] tests of the condition;
    [while_pad_fuel] below shows that the one loop of the program never gets
    there. *)
Fixpoint while {St : Type} (fuel : nat) (cond : St -> bool) (body : St -> St)
    (s : St) : result St :=
  match fuel with
  | O => Raise LoopFuel
  | S fuel' => if cond s then while fuel' cond body (body s) else Ok s
  end.

(** [for x in l: body] over a loop state, the body possibly raising. *)
Fixpoint for_each {A St : Type} (l : list A) (body : St -> A -> result St)
    (s : St) : result St :=
  match l with
  | [] => Ok s
  | x :: l' => s' ← body s x; for_each l' body s'
  end.

(** The same loop with a body that may execute [return]. *)
Inductive control (St R : Type) : Type :=
| Next (s : St)
| Return (r : R).
Arguments Next {St R} s.
Arguments Return {St R} r.

Fixpoint for_return {A St R : Type} (l : list A)
    (body : St -> A -> result (control St R)) (s : St) : result (control St R) :=
  match l with
  | [] => Ok (Next s)
  | x :: l' =>
      c ← body s x;
      match c with
      | Next s' => for_return l' body s'
      | Return r => Ok (Return r)
      end
  end.

(** [f'{x:08x}']: lowercase hexadecimal, zero-filled to width 8; the sign of a
    negative number comes first and counts in the width. *)
Definition hex_digit (d : Z) : ascii :=
  nth (Z.to_nat d) (list_ascii_of_string "0123456789abcdef") "0"%char.

Fixpoint hex_digits (fuel : nat) (x : Z) (acc : string) : string :=
  match fuel with
  | O => acc
  | S fuel' =>
      let acc' := String (hex_digit (x mod 16)) acc in
      if x / 16 =? 0 then acc' else hex_digits fuel' (x / 16) acc'
  end.

(** The digits of [x >= 0] without leading zeros; [Z.log2 x + 1] bits bound
    the number of digits. *)
Definition hex (x : Z) : string :=
  hex_digits (S (Z.to_nat (Z.log2 x))) x EmptyString.

Fixpoint zeros (n : nat) : string :=
  match n with
  | O => EmptyString
  | S n' => String "0" (zeros n')
  end.

Definition zfill (width : nat) (s : string) : string :=
  (zeros (width - String.length s) ++ s)%string.

Definition format_08x (x : Z) : string :=
  if x <? 0 then String "-" (zfill 7 (hex (- x))) else zfill 8 (hex x).

(** ** padding (source lines 70-82) *)

(** The loop appends at most 63 zero bytes, so it tests its condition at most
    64 times. *)
Definition padding_fuel : nat := 64.

Definition padding (message_bytes : list byte) : result (list byte) :=
  let message_bit_length := len message_bytes * 8 in
  let padded_message := message_bytes ++ [x80] in
  padded_message ←
    while padding_fuel
      (fun padded_message => negb ((len padded_message * 8) mod 512 =? 448))
      (fun padded_message => padded_message ++ [x00])
      padded_message;
  length_field ← to_bytes message_bit_length 8;
  Ok (padded_message ++ length_field).

(** ** parse_message (source lines 84-99) *)

(** The inner loop: the words of one block. *)
Definition parse_words (block : list byte) : list Z :=
  fold_left
    (fun words j =>
       let word := from_bytes (slice block j (j + 4)) in
       words ++ [word])
    (range 0 64 4) [].

Definition parse_message (padded_message : list byte) : list (list Z) :=
  fold_left
    (fun blocks i =>
       let block := slice padded_message i (i + 64) in
       let words := parse_words block in
       blocks ++ [words])
    (range 0 (length padded_message) 64) [].

(** ** sha256_hash_computation (source lines 101-139) *)

Definition working : Type := (Z * Z * Z * Z * Z * Z * Z * Z)%type.

(** Body of [for t in range(16, 64)]: one more word of the schedule. *)
Definition schedule_step (w : list Z) (t : nat) : result (list Z) :=
  w15 ← index w (t - 15);
  let s0 := sigma0_256_small w15 in
  w2 ← index w (t - 2);
  let s1 := sigma1_256_small w2 in
  w16 ← index w (t - 16);
  w7 ← index w (t - 7);
  Ok (w ++ [Z.land (w16 + s0 + w7 + s1) mask32]).

(** Body of [for t in range(64)]: one round on the working variables. *)
Definition round (w : list Z) (v : working) (t : nat) : result working :=
  let '(a, b, c, d, e, f, g, h_temp) := v in
  let s1 := sigma1_256 e in
  let ch_val := ch e f g in
  k ← index K_256 t;
  wt ← index w t;
  let temp1 := Z.land (h_temp + s1 + ch_val + k + wt) mask32 in
  let s0 := sigma0_256 a in
  let maj_val := maj a b c in
  let temp2 := Z.land (s0 + maj_val) mask32 in
  let h_temp := g in
  let g := f in
  let f := e in
  let e := Z.land (d + temp1) mask32 in
  let d := c in
  let c := b in
  let b := a in
  let a := Z.land (temp1 + temp2) mask32 in
  Ok (a, b, c, d, e, f, g, h_temp).

(** Body of [for i in range(8)]: [h[i] = (h[i] + vars[i]) & 0xFFFFFFFF], an
    update of the list [h] in place. *)
Definition add_step (vars : list Z) (h : list Z) (i : nat) : result (list Z) :=
  hi ← index h i;
  vi ← index vars i;
  Ok (<[i := Z.land (hi + vi) mask32]> h).

(** Body of [for block in message_blocks], up to its [return]: lines 111-137.
    Unpacking [h] into eight names raises [ValueError] on any other length. *)
Definition compress (h : list Z) (block : list Z) : result (list Z) :=
  let w := block in
  w ← for_each (seq 16 48) schedule_step w;
  match h with
  | [a; b; c; d; e; f; g; h_temp] =>
      v ← for_each (seq 0 64) (round w) (a, b, c, d, e, f, g, h_temp);
      let '(a, b, c, d, e, f, g, h_temp) := v in
      for_each (seq 0 8) (add_step [a; b; c; d; e; f; g; h_temp]) h
  | _ => Raise ValueError
  end.

(** The [return h] of line 139 is inside the loop over the blocks: it ends the
    function at the end of the first iteration.  With no block at all the
    loop body never runs and the function ends without a [return]: the caller
    gets [None]. *)
Definition sha256_hash_computation (message_blocks : list (list Z))
    : result (option (list Z)) :=
  let h := h_initial in
  c ← for_return message_blocks
        (fun h block => h ← compress h block; Ok (Return h)) h;
  match c with
  | Return h => Ok (Some h)
  | Next _ => Ok None
  end.

(** ** sha256 (source lines 141-146) *)

Definition sha256 (message : list byte) : result string :=
  padded_message ← padding message;
  let message_blocks := parse_message padded_message in
  final_hash ← sha256_hash_computation message_blocks;
  match final_hash with
  | Some final_hash => Ok (String.concat "" (map format_08x final_hash))
  | None => Raise TypeError
  end.

(** The bytes of an ASCII text, as [text.encode()] gives them. *)
Definition encode (text : string) : list byte :=
  map byte_of_ascii (list_ascii_of_string text).


(** ** The specification's own formulas

    Written from the specification's words, to be compared with the
    definitions above, which are written from the source. *)

(** A big-endian 64-bit unsigned integer: eight bytes, most significant first. *)
Definition spec_be64 (n : Z) : list byte :=
  [ byte_of (n / 256 ^ 7); byte_of (n / 256 ^ 6); byte_of (n / 256 ^ 5);
    byte_of (n / 256 ^ 4); byte_of (n / 256 ^ 3); byte_of (n / 256 ^ 2);
    byte_of (n / 256 ^ 1); byte_of n ].

(** The number of zero bytes after the [0x80] byte of a message of [n] bytes:
    the least [k] with [(n + 1 + k) * 8 = 448 (mod 512)]. *)
Definition spec_zero_bytes (n : Z) : nat := Z.to_nat ((55 - n) mod 64).

(** [rotr(x,n)] of the specification: [(x >> n) | (x << (32-n))], the result
    masked to 32 bits. *)
Definition spec_rotr (x n : Z) : Z :=
  (Z.lor (Z.shiftr x n) (Z.shiftl x (32 - n))) mod 2 ^ 32.

(** Complement of a 32-bit word. *)
Definition spec_not (x : Z) : Z := (Z.lnot x) mod 2 ^ 32.

Definition spec_sigma0_small (x : Z) : Z :=
  Z.lxor (Z.lxor (spec_rotr x 7) (spec_rotr x 18)) (Z.shiftr x 3).

Definition spec_sigma1_small (x : Z) : Z :=
  Z.lxor (Z.lxor (spec_rotr x 17) (spec_rotr x 19)) (Z.shiftr x 10).

Definition spec_Sigma0 (x : Z) : Z :=
  Z.lxor (Z.lxor (spec_rotr x 2) (spec_rotr x 13)) (spec_rotr x 22).

Definition spec_Sigma1 (x : Z) : Z :=
  Z.lxor (Z.lxor (spec_rotr x 6) (spec_rotr x 11)) (spec_rotr x 25).

Definition spec_Ch (x y z : Z) : Z :=
  Z.lxor (Z.land x y) (Z.land (spec_not x) z).

Definition spec_Maj (x y z : Z) : Z :=
  Z.lxor (Z.lxor (Z.land x y) (Z.land x z)) (Z.land y z).

(** One round on the working variables, with the round constant [k] and the
    schedule word [wt]:
    [(h,g,f,e,d,c,b,a) <- (g,f,e,(d+T1) mod 2^32,c,b,a,(T1+T2) mod 2^32)]. *)
Definition spec_round (k wt : Z) (v : working) : working :=
  let '(a, b, c, d, e, f, g, h) := v in
  let T1 := (h + spec_Sigma1 e + spec_Ch e f g + k + wt) mod 2 ^ 32 in
  let T2 := (spec_Sigma0 a + spec_Maj a b c) mod 2 ^ 32 in
  ((T1 + T2) mod 2 ^ 32, a, b, c, (d + T1) mod 2 ^ 32, e, f, g).

(** The working variables after the rounds [t = 0 .. n-1]. *)
Fixpoint spec_rounds (n : nat) (w : list Z) (v : working) : working :=
  match n with
  | O => v
  | S n' => spec_round (nth n' K_256 0) (nth n' w 0) (spec_rounds n' w v)
  end.

(** [w] is the message schedule of [block] up to index [u]: its first 16
    words are the block's, and each later word is
    [W[t] = (W[t-16] + s0(W[t-15]) + W[t-7] + s1(W[t-2])) mod 2^32]. *)
Definition spec_schedule (block : list Z) (u : nat) (w : list Z) : Prop :=
  length w = u
  /\ take 16 w = block
  /\ forall t : nat, (16 <= t < u)%nat ->
       nth t w 0 =
         (nth (t - 16) w 0 + spec_sigma0_small (nth (t - 15) w 0)
          + nth (t - 7) w 0 + spec_sigma1_small (nth (t - 2) w 0)) mod 2 ^ 32.

(** The working variables [a .. h] seeded from the running state. *)
Definition spec_seed (state : list Z) : working :=
  (nth 0 state 0, nth 1 state 0, nth 2 state 0, nth 3 state 0,
   nth 4 state 0, nth 5 state 0, nth 6 state 0, nth 7 state 0).

Definition working_list (v : working) : list Z :=
  let '(a, b, c, d, e, f, g, h) := v in [a; b; c; d; e; f; g; h].

(** The digest as the specification mandates it: the compression step folded
    over all the blocks, each block's output state being the next block's
    input state, then formatted as [sha256] does. *)
Definition spec_fold_blocks (message_blocks : list (list Z)) : result (list Z) :=
  for_each message_blocks compress h_initial.

Definition spec_digest (message : list byte) : result string :=
  padded_message ← padding message;
  final_hash ← spec_fold_blocks (parse_message padded_message);
  Ok (String.concat "" (map format_08x final_hash)).

(** The lowercase hexadecimal character of a digit value, as a table of its
    own; a value that is no digit gets a character that is no digit. *)
Definition spec_hex_char (d : Z) : ascii :=
  match d with
  | 0 => "0" | 1 => "1" | 2 => "2" | 3 => "3"
  | 4 => "4" | 5 => "5" | 6 => "6" | 7 => "7"
  | 8 => "8" | 9 => "9" | 10 => "a" | 11 => "b"
  | 12 => "c" | 13 => "d" | 14 => "e" | 15 => "f"
  | _ => "?"
  end%char.

(** A 32-bit word as eight hexadecimal digits, most significant first: the
    hex encoding of its four big-endian bytes. *)
Definition spec_hex8 (x : Z) : string :=
  String (spec_hex_char (x / 16 ^ 7 mod 16))
  (String (spec_hex_char (x / 16 ^ 6 mod 16))
  (String (spec_hex_char (x / 16 ^ 5 mod 16))
  (String (spec_hex_char (x / 16 ^ 4 mod 16))
  (String (spec_hex_char (x / 16 ^ 3 mod 16))
  (String (spec_hex_char (x / 16 ^ 2 mod 16))
  (String (spec_hex_char (x / 16 ^ 1 mod 16))
  (String (spec_hex_char (x mod 16)) EmptyString))))))).

(** [n] hexadecimal digits of [x], least significant last, in front of [acc]. *)
Fixpoint fixed_hex (n : nat) (x : Z) (acc : string) : string :=
  match n with
  | O => acc
  | S n' => fixed_hex n' (x / 16) (String (hex_digit (x mod 16)) acc)
  end.

Definition lower_hex (c : ascii) : Prop :=
  In c (list_ascii_of_string "0123456789abcdef").

(** The 56-byte message of the NIST two-block test vector. *)
Definition nist_two_blocks : list byte :=
  encode "abcdbcdecdefdefgefghfghighijhijkijkljklmklmnlmnomnopnopq".

(** * Properties *)

(** ** Bit-level facts *)

Lemma mask32_ones : mask32 = Z.ones 32.
Proof. reflexivity. Qed.

Lemma land_mask32 (x : Z) : Z.land x mask32 = x mod 2 ^ 32.
Proof. rewrite mask32_ones. apply Z.land_ones. lia. Qed.

Lemma word_mod (x : Z) : word (x mod 2 ^ 32).
Proof. unfold word. apply Z.mod_pos_bound. lia. Qed.

Lemma word_land_mask32 (x : Z) : word (Z.land x mask32).
Proof. rewrite land_mask32. apply word_mod. Qed.

Lemma word_testbit_high (x i : Z) : word x -> 32 <= i -> Z.testbit x i = false.
Proof.
  intros Hx Hi. rewrite <- (Z.mod_small x (2 ^ 32)) by exact Hx.
  apply Z.mod_pow2_bits_high. lia.
Qed.

Lemma testbit_word (x : Z) :
  0 <= x -> (forall i, 32 <= i -> Z.testbit x i = false) -> word x.
Proof.
  intros Hx H. split; [exact Hx|].
  destruct (Z.eq_dec x 0) as [->|Hne]; [lia|].
  apply Z.log2_lt_pow2; [lia|].
  destruct (Z_lt_le_dec (Z.log2 x) 32) as [Hlt|Hge]; [exact Hlt|].
  pose proof (Z.bit_log2 x ltac:(lia)) as Hb.
  rewrite H in Hb by exact Hge. discriminate.
Qed.

Lemma testbit_rotr (x n i : Z) :
  word x -> 1 <= n <= 31 -> 0 <= i ->
  Z.testbit (rotr x n) i =
    if i <? 32 then Z.testbit x ((i + n) mod 32) else false.
Proof.
  intros Hx Hn Hi. unfold rotr.
  rewrite Z.lor_spec, Z.shiftr_spec, Z.land_spec, Z.shiftl_spec by lia.
  rewrite mask32_ones, Z.testbit_ones by lia.
  destruct (Z.ltb_spec i 32) as [Hlt|Hge].
  - replace (0 <=? i) with true by (symmetry; apply Z.leb_le; lia).
    rewrite andb_true_r.
    destruct (Z_lt_le_dec (i + n) 32) as [Hs|Hs].
    + rewrite (Z.mod_small (i + n) 32) by lia.
      rewrite (Z.testbit_neg_r x (i - (32 - n))) by lia.
      apply orb_false_r.
    + rewrite (word_testbit_high x (i + n)) by (assumption || lia).
      replace ((i + n) mod 32) with (i - (32 - n)); [reflexivity|].
      apply Z.mod_unique with (q := 1); lia.
  - rewrite (word_testbit_high x (i + n)) by (assumption || lia).
    rewrite !andb_false_r. reflexivity.
Qed.

Lemma rotr_nonneg (x n : Z) : 0 <= x -> 0 <= rotr x n.
Proof.
  intros Hx. unfold rotr. apply Z.lor_nonneg. split.
  - apply Z.shiftr_nonneg. exact Hx.
  - apply Z.land_nonneg. right. unfold mask32. lia.
Qed.

Lemma word_rotr (x n : Z) : word x -> 1 <= n <= 31 -> word (rotr x n).
Proof.
  intros Hx Hn. apply testbit_word.
  - apply rotr_nonneg. apply Hx.
  - intros i Hi. rewrite testbit_rotr by (assumption || lia).
    replace (i <? 32) with false by (symmetry; apply Z.ltb_ge; lia).
    reflexivity.
Qed.

Lemma rotr_spec_rotr (x n : Z) :
  word x -> 1 <= n <= 31 -> rotr x n = spec_rotr x n.
Proof.
  intros Hw Hn. unfold spec_rotr.
  apply Z.bits_inj'. intros i Hi.
  rewrite testbit_rotr by (assumption || lia).
  destruct (Z.ltb_spec i 32) as [Hlt|Hge].
  - rewrite Z.mod_pow2_bits_low by lia.
    rewrite Z.lor_spec, Z.shiftr_spec, Z.shiftl_spec by lia.
    destruct (Z_lt_le_dec (i + n) 32) as [Hs|Hs].
    + rewrite (Z.mod_small (i + n) 32) by lia.
      rewrite (Z.testbit_neg_r x (i - (32 - n))) by lia.
      symmetry. apply orb_false_r.
    + rewrite (word_testbit_high x (i + n)) by (assumption || lia).
      replace ((i + n) mod 32) with (i - (32 - n)); [reflexivity|].
      apply Z.mod_unique with (q := 1); lia.
  - rewrite Z.mod_pow2_bits_high by lia. reflexivity.
Qed.

(** C6. On a 32-bit word [x] and a count [n] from 1 to 31, [rotr] is the
    circular right rotation [((x >> n) | (x << (32 - n))) mod 2^32]: the
    result is again a 32-bit word, and every bit of [x] is kept, bit
    [(i + n) mod 32] of [x] landing at position [i].  [shr] is the plain right
    shift [x >> n = x / 2^n]: bit [i + n] of [x] lands at position [i] and the
    low [n] bits are gone. *)
Theorem rotr_rotates_shr_shifts (x n : Z) :
  0 <= x < 2 ^ 32 -> 1 <= n <= 31 ->
  rotr x n = (Z.lor (Z.shiftr x n) (Z.shiftl x (32 - n))) mod 2 ^ 32
  /\ rotr x n = spec_rotr x n
  /\ 0 <= rotr x n < 2 ^ 32
  /\ (forall i, 0 <= i < 32 ->
        Z.testbit (rotr x n) i = Z.testbit x ((i + n) mod 32))
  /\ shr x n = Z.shiftr x n
  /\ shr x n = x / 2 ^ n
  /\ (forall i, 0 <= i -> Z.testbit (shr x n) i = Z.testbit x (i + n)).
Proof.
  intros Hx Hn.
  assert (Hw : word x) by exact Hx.
  repeat split.
  - apply (rotr_spec_rotr x n Hw Hn).
  - apply (rotr_spec_rotr x n Hw Hn).
  - apply (word_rotr x n Hw Hn).
  - apply (word_rotr x n Hw Hn).
  - intros i Hi. rewrite testbit_rotr by (assumption || lia).
    replace (i <? 32) with true by (symmetry; apply Z.ltb_lt; lia).
    reflexivity.
  - unfold shr. apply Z.shiftr_div_pow2. lia.
  - intros i Hi. unfold shr. apply Z.shiftr_spec. exact Hi.
Qed.

Lemma rotr_rotates_shr_shifts_witness :
  (0 <= 0x80000001 < 2 ^ 32 /\ 1 <= 4 <= 31)
  /\ rotr 0x80000001 4 = 0x18000000
  /\ shr 0x80000001 4 = 0x08000000.
Proof.
  split; [lia|].
  pose proof (rotr_rotates_shr_shifts 0x80000001 4 ltac:(lia) ltac:(lia))
    as (Hrot & _ & _ & _ & _ & Hshr & _).
  split; [rewrite Hrot | rewrite Hshr]; reflexivity.
Defined.

(** ** The error monad *)

Lemma bind_Ok {A B : Type} (a : A) (k : A -> result B) : (Ok a ≫= k) = k a.
Proof. reflexivity. Qed.

Lemma bind_Raise {A B : Type} (e : exn) (k : A -> result B) :
  (Raise e ≫= k) = Raise e.
Proof. reflexivity. Qed.

(** ** Bytes *)

Lemma len_app {A : Type} (l1 l2 : list A) : len (l1 ++ l2) = len l1 + len l2.
Proof. unfold len. rewrite length_app. lia. Qed.

Lemma len_nonneg {A : Type} (l : list A) : 0 <= len l.
Proof. unfold len. lia. Qed.

Lemma byte_val_range (b : byte) : 0 <= byte_val b < 256.
Proof.
  unfold byte_val. pose proof (Byte.to_N_bounded b) as H.
  split; [lia|]. apply N2Z.inj_le in H. change (Z.of_N 255) with 255 in H. lia.
Qed.

Lemma byte_val_of (z : Z) : byte_val (byte_of z) = z mod 256.
Proof.
  unfold byte_val, byte_of.
  assert (Hr : 0 <= z mod 256 < 256) by (apply Z.mod_pos_bound; lia).
  destruct (Byte.of_N (Z.to_N (z mod 256))) as [b|] eqn:E.
  - apply Byte.to_of_N in E. rewrite E. apply Z2N.id. lia.
  - apply Byte.of_N_None_iff in E. lia.
Qed.

Lemma byte_of_val (b : byte) : byte_of (byte_val b) = b.
Proof.
  unfold byte_of. rewrite Z.mod_small by apply byte_val_range.
  unfold byte_val. rewrite N2Z.id, Byte.of_to_N. reflexivity.
Qed.

Lemma to_bytes_8 (x : Z) :
  to_bytes x 8 =
    if (x <? 0) || (2 ^ 64 <=? x) then Raise OverflowError else Ok (spec_be64 x).
Proof.
  unfold to_bytes. change (256 ^ Z.of_nat 8) with (2 ^ 64).
  destruct ((x <? 0) || (2 ^ 64 <=? x)); [reflexivity|].
  unfold spec_be64. cbn [seq map]. f_equal.
  change (8 * Z.of_nat (8 - 1 - 0)) with (8 * 7).
  change (8 * Z.of_nat (8 - 1 - 1)) with (8 * 6).
  change (8 * Z.of_nat (8 - 1 - 2)) with (8 * 5).
  change (8 * Z.of_nat (8 - 1 - 3)) with (8 * 4).
  change (8 * Z.of_nat (8 - 1 - 4)) with (8 * 3).
  change (8 * Z.of_nat (8 - 1 - 5)) with (8 * 2).
  change (8 * Z.of_nat (8 - 1 - 6)) with (8 * 1).
  change (8 * Z.of_nat (8 - 1 - 7)) with 0.
  rewrite Z.shiftr_0_r, !Z.shiftr_div_pow2 by lia.
  reflexivity.
Qed.

Lemma from_bytes_app (bs : list byte) (b : byte) :
  from_bytes (bs ++ [b]) = from_bytes bs * 256 + byte_val b.
Proof. unfold from_bytes. rewrite fold_left_app. reflexivity. Qed.

Lemma from_bytes_4 (b0 b1 b2 b3 : byte) :
  from_bytes [b0; b1; b2; b3] =
    byte_val b0 * 2 ^ 24 + byte_val b1 * 2 ^ 16 + byte_val b2 * 2 ^ 8 + byte_val b3.
Proof. unfold from_bytes. cbn [fold_left]. lia. Qed.

Lemma from_bytes_range (bs : list byte) :
  0 <= from_bytes bs < 256 ^ len bs.
Proof.
  induction bs as [|b bs IH] using rev_ind.
  - cbv. split; [discriminate | reflexivity].
  - rewrite from_bytes_app, len_app.
    change (len [b]) with 1.
    rewrite Z.pow_add_r by (apply len_nonneg || lia).
    pose proof (byte_val_range b). lia.
Qed.

Lemma from_bytes_be64 (n : Z) : 0 <= n < 2 ^ 64 -> from_bytes (spec_be64 n) = n.
Proof.
  intros Hn. unfold spec_be64, from_bytes. cbn [fold_left].
  rewrite !byte_val_of.
  change (2 ^ 64) with (256 ^ 8) in Hn.
  Z.div_mod_to_equations. lia.
Qed.

(** ** padding *)

(** The loop of [padding] stops after [k] zero bytes, [k] being what the
    length of the bytes so far lacks to 56 modulo 64, and any fuel above [k]
    is enough. *)
Lemma while_pad_fuel (k : nat) : forall (fuel : nat) (p : list byte),
  (k < fuel)%nat ->
  Z.of_nat k = (56 - len p) mod 64 ->
  while fuel
    (fun padded_message => negb ((len padded_message * 8) mod 512 =? 448))
    (fun padded_message => padded_message ++ [x00]) p
  = Ok (p ++ repeat x00 k).
Proof.
  induction k as [|k IH]; intros fuel p Hfuel Hk;
    (destruct fuel as [|fuel]; [lia|]); cbn [while].
  - destruct (Z.eqb_spec ((len p * 8) mod 512) 448) as [_|Hne].
    + cbn [negb repeat]. rewrite app_nil_r. reflexivity.
    + exfalso. apply Hne. change (Z.of_nat 0) with 0 in Hk.
      Z.div_mod_to_equations. lia.
  - destruct (Z.eqb_spec ((len p * 8) mod 512) 448) as [He|_].
    + exfalso. rewrite Nat2Z.inj_succ in Hk. Z.div_mod_to_equations. lia.
    + cbn [negb repeat]. rewrite (IH fuel (p ++ [x00])).
      * rewrite <- app_assoc. reflexivity.
      * lia.
      * rewrite len_app. change (len [x00]) with 1.
        rewrite Nat2Z.inj_succ in Hk. Z.div_mod_to_equations. lia.
Qed.

Lemma spec_zero_bytes_lt (n : Z) : (spec_zero_bytes n < 64)%nat.
Proof.
  unfold spec_zero_bytes.
  pose proof (Z.mod_pos_bound (55 - n) 64 ltac:(lia)). lia.
Qed.

Lemma padding_eq (message_bytes : list byte) :
  padding message_bytes =
    if 2 ^ 61 <=? len message_bytes then Raise OverflowError
    else Ok (message_bytes ++ [x80]
               ++ repeat x00 (spec_zero_bytes (len message_bytes))
               ++ spec_be64 (len message_bytes * 8)).
Proof.
  unfold padding. cbv zeta.
  rewrite (while_pad_fuel (spec_zero_bytes (len message_bytes))).
  - rewrite bind_Ok, to_bytes_8.
    pose proof (len_nonneg message_bytes) as Hlen.
    destruct (Z.leb_spec (2 ^ 61) (len message_bytes)) as [Hbig|Hsmall].
    + replace ((len message_bytes * 8 <? 0) || (2 ^ 64 <=? len message_bytes * 8))
        with true; [reflexivity|].
      symmetry. apply orb_true_iff. right. apply Z.leb_le. lia.
    + replace ((len message_bytes * 8 <? 0) || (2 ^ 64 <=? len message_bytes * 8))
        with false.
      * rewrite bind_Ok, <- !app_assoc. reflexivity.
      * symmetry. apply orb_false_iff. split; [apply Z.ltb_ge | apply Z.leb_gt]; lia.
  - unfold padding_fuel. apply spec_zero_bytes_lt.
  - rewrite len_app. change (len [x80]) with 1. unfold spec_zero_bytes.
    pose proof (Z.mod_pos_bound (55 - len message_bytes) 64 ltac:(lia)).
    rewrite Z2Nat.id by lia. f_equal. lia.
Qed.

(** More fuel changes nothing: the cut of the loop is never reached. *)
Lemma padding_fuel_enough (fuel : nat) (message_bytes : list byte) :
  (padding_fuel <= fuel)%nat ->
  while fuel
    (fun padded_message => negb ((len padded_message * 8) mod 512 =? 448))
    (fun padded_message => padded_message ++ [x00]) (message_bytes ++ [x80])
  = Ok ((message_bytes ++ [x80]) ++ repeat x00 (spec_zero_bytes (len message_bytes))).
Proof.
  intros Hfuel. apply while_pad_fuel.
  - pose proof (spec_zero_bytes_lt (len message_bytes)). unfold padding_fuel in Hfuel. lia.
  - rewrite len_app. change (len [x80]) with 1. unfold spec_zero_bytes.
    pose proof (Z.mod_pos_bound (55 - len message_bytes) 64 ltac:(lia)).
    rewrite Z2Nat.id by lia. f_equal. lia.
Qed.

Lemma len_repeat {A : Type} (x : A) (n : nat) : len (repeat x n) = Z.of_nat n.
Proof. unfold len. rewrite repeat_length. reflexivity. Qed.

Lemma len_padded (message_bytes : list byte) :
  len (message_bytes ++ [x80]
         ++ repeat x00 (spec_zero_bytes (len message_bytes))
         ++ spec_be64 (len message_bytes * 8))
  = len message_bytes + 9 + (55 - len message_bytes) mod 64.
Proof.
  rewrite !len_app, len_repeat.
  change (len [x80]) with 1. change (len (spec_be64 _)) with 8.
  unfold spec_zero_bytes.
  pose proof (Z.mod_pos_bound (55 - len message_bytes) 64 ltac:(lia)).
  rewrite Z2Nat.id by lia. lia.
Qed.

(** C4. [padding] returns the message, the byte 0x80, the least number of
    zero bytes that brings the bit length to 448 modulo 512, and the bit
    length of the message as eight big-endian bytes; the result's bit length
    is a positive multiple of 512 and it is 9 to 72 bytes longer than the
    message.  The only other outcome is the [OverflowError] of [to_bytes],
    for a message of 2^61 bytes or more. *)
Theorem padding_layout (message : list byte) :
  match padding message with
  | Ok padded =>
      exists k : nat,
        padded = message ++ [x80] ++ repeat x00 k ++ spec_be64 (len message * 8)
        /\ ((len message + 1 + Z.of_nat k) * 8) mod 512 = 448
        /\ (forall j : nat,
              (j < k)%nat -> ((len message + 1 + Z.of_nat j) * 8) mod 512 <> 448)
        /\ from_bytes (spec_be64 (len message * 8)) = len message * 8
        /\ 0 < len padded * 8
        /\ (len padded * 8) mod 512 = 0
        /\ 9 <= len padded - len message <= 72
  | Raise e => e = OverflowError /\ 2 ^ 61 <= len message
  end.
Proof.
  rewrite padding_eq.
  pose proof (len_nonneg message) as Hlen.
  destruct (Z.leb_spec (2 ^ 61) (len message)) as [Hbig|Hsmall].
  - split; [reflexivity | exact Hbig].
  - exists (spec_zero_bytes (len message)).
    rewrite len_padded.
    pose proof (Z.mod_pos_bound (55 - len message) 64 ltac:(lia)) as Hk.
    assert (Hz : Z.of_nat (spec_zero_bytes (len message)) = (55 - len message) mod 64)
      by (unfold spec_zero_bytes; apply Z2Nat.id; lia).
    split; [reflexivity|].
    split; [rewrite Hz; Z.div_mod_to_equations; lia|].
    split.
    { intros j Hj. apply Nat2Z.inj_lt in Hj. rewrite Hz in Hj.
      Z.div_mod_to_equations. lia. }
    split; [apply from_bytes_be64; lia|].
    split; [lia|].
    split; [Z.div_mod_to_equations; lia | lia].
Qed.

(** C7. On a message of 2^61 bytes or more, whose bit length does not fit
    the 64-bit length field, [padding] raises ([int.to_bytes] refuses the
    length, Python's [OverflowError]) and so does [sha256]: the error reaches
    the caller and no digest, partial or truncated, is returned. *)
Theorem sha256_input_too_large (message : list byte) :
  2 ^ 61 <= len message ->
  padding message = Raise OverflowError
  /\ sha256 message = Raise OverflowError
  /\ (forall digest : string, sha256 message <> Ok digest).
Proof.
  intros Hbig.
  assert (Hpad : padding message = Raise OverflowError).
  { rewrite padding_eq.
    destruct (Z.leb_spec (2 ^ 61) (len message)); [reflexivity | lia]. }
  assert (Hsha : sha256 message = Raise OverflowError).
  { unfold sha256. rewrite Hpad. apply bind_Raise. }
  split; [exact Hpad|]. split; [exact Hsha|].
  intros digest H. rewrite Hsha in H. discriminate.
Qed.

Lemma sha256_input_too_large_witness :
  2 ^ 61 <= len (repeat x00 (Z.to_nat (2 ^ 61)))
  /\ sha256 (repeat x00 (Z.to_nat (2 ^ 61))) = Raise OverflowError.
Proof.
  assert (H : 2 ^ 61 <= len (repeat x00 (Z.to_nat (2 ^ 61)))).
  { rewrite len_repeat, Z2Nat.id; lia. }
  split; [exact H|].
  apply (sha256_input_too_large (repeat x00 (Z.to_nat (2 ^ 61))) H).
Defined.

(** ** parse_message *)

Section Parse.
Local Open Scope nat_scope.

(** A loop that appends one element per iteration builds the list of the
    elements. *)
Lemma fold_left_append {A B : Type} (f : A -> B) (l : list A) (init : list B) :
  fold_left (fun acc x => acc ++ [f x]) l init = init ++ map f l.
Proof.
  revert init. induction l as [|x l IH]; intros init; cbn [fold_left map].
  - rewrite app_nil_r. reflexivity.
  - rewrite IH, <- app_assoc. reflexivity.
Qed.

Lemma length_range (stop step : nat) :
  length (range 0 stop step) = (stop + (step - 1)) / step.
Proof. unfold range. rewrite length_map, length_seq, Nat.sub_0_r. reflexivity. Qed.

Lemma lookup_range (stop step i : nat) :
  i < (stop + (step - 1)) / step -> range 0 stop step !! i = Some (i * step).
Proof.
  intros Hi. unfold range. rewrite Nat.sub_0_r.
  rewrite list_lookup_fmap, lookup_seq_lt by exact Hi. reflexivity.
Qed.

Lemma parse_words_eq (block : list byte) :
  parse_words block =
    map (fun j => from_bytes (slice block j (j + 4))) (range 0 64 4).
Proof. unfold parse_words. apply (fold_left_append _ _ []). Qed.

Lemma parse_message_eq (padded_message : list byte) :
  parse_message padded_message =
    map (fun i => parse_words (slice padded_message i (i + 64)))
        (range 0 (length padded_message) 64).
Proof. unfold parse_message. apply (fold_left_append _ _ []). Qed.

Lemma length_parse_words (block : list byte) : length (parse_words block) = 16.
Proof. rewrite parse_words_eq, length_map. reflexivity. Qed.

Lemma length_parse_message (padded_message : list byte) :
  length (parse_message padded_message) = (length padded_message + 63) / 64.
Proof. rewrite parse_message_eq, length_map, length_range. reflexivity. Qed.

Lemma slice_eq {A : Type} (l : list A) (i n : nat) :
  slice l i (i + n) = take n (drop i l).
Proof. unfold slice. f_equal. lia. Qed.

(** Word [j] of a block is read from the bytes [4j .. 4j+3] of the chunk, as
    many of them as the chunk has. *)
Lemma lookup_parse_words (block : list byte) (j : nat) :
  j < 16 ->
  parse_words block !! j = Some (from_bytes (take 4 (drop (4 * j) block))).
Proof.
  intros Hj. rewrite parse_words_eq, list_lookup_fmap.
  rewrite (lookup_range 64 4 j) by exact Hj.
  cbn [fmap option_fmap option_map]. rewrite slice_eq.
  replace (j * 4) with (4 * j) by lia. reflexivity.
Qed.

(** Block [i] is read from the chunk that starts at byte [64 i]. *)
Lemma lookup_parse_message (padded_message : list byte) (i : nat) :
  i < (length padded_message + 63) / 64 ->
  parse_message padded_message !! i =
    Some (parse_words (take 64 (drop (64 * i) padded_message))).
Proof.
  intros Hi. rewrite parse_message_eq, list_lookup_fmap.
  rewrite (lookup_range (length padded_message) 64 i) by exact Hi.
  cbn [fmap option_fmap option_map]. rewrite slice_eq.
  replace (i * 64) with (64 * i) by lia. reflexivity.
Qed.

Lemma Forall_parse_message_16 (padded_message : list byte) :
  Forall (fun block => length block = 16) (parse_message padded_message).
Proof.
  rewrite parse_message_eq. apply Forall_fmap, Forall_forall.
  intros i _. apply length_parse_words.
Qed.

(** Four bytes that are all there. *)
Lemma take_4_drop {A : Type} (l : list A) (n : nat) :
  n + 4 <= length l ->
  exists b0 b1 b2 b3,
    l !! n = Some b0 /\ l !! (n + 1) = Some b1
    /\ l !! (n + 2) = Some b2 /\ l !! (n + 3) = Some b3
    /\ take 4 (drop n l) = [b0; b1; b2; b3].
Proof.
  intros Hn.
  pose proof (length_drop l n) as Hlen.
  pose proof (lookup_drop l n 0) as H0. pose proof (lookup_drop l n 1) as H1.
  pose proof (lookup_drop l n 2) as H2. pose proof (lookup_drop l n 3) as H3.
  rewrite Nat.add_0_r in H0.
  destruct (drop n l) as [|b0 [|b1 [|b2 [|b3 rest]]]]; cbn [length] in Hlen; try lia.
  exists b0, b1, b2, b3. cbn in H0, H1, H2, H3.
  repeat split; symmetry; assumption.
Qed.

Lemma chunk_word_bytes {A : Type} (l : list A) (i j : nat) :
  j < 16 ->
  take 4 (drop (4 * j) (take 64 (drop (64 * i) l))) =
    take (min 4 (length l - 64 * i - 4 * j)) (drop (64 * i + 4 * j) l)
  /\ (64 * i + 4 * j + 4 <= length l ->
      take 4 (drop (4 * j) (take 64 (drop (64 * i) l))) =
        take 4 (drop (64 * i + 4 * j) l)).
Proof.
  intros Hj.
  assert (E : take 4 (drop (4 * j) (take 64 (drop (64 * i) l))) =
              take 4 (drop (64 * i + 4 * j) l)).
  { rewrite <- drop_drop.
    rewrite (take_drop_commute (take 64 (drop (64 * i) l)) 4 (4 * j)).
    rewrite take_take. rewrite Nat.min_l by lia.
    rewrite <- take_drop_commute. reflexivity. }
  split; [|intros _; exact E].
  rewrite E. destruct (Nat.le_gt_cases 4 (length l - 64 * i - 4 * j)) as [H|H].
  - rewrite Nat.min_l by exact H. reflexivity.
  - rewrite Nat.min_r by lia.
    rewrite (take_ge (drop _ l) 4) by (rewrite length_drop; lia).
    rewrite take_ge by (rewrite length_drop; lia). reflexivity.
Qed.

End Parse.

(** C5. On a byte sequence whose length is a multiple of 64, [parse_message]
    returns one block per 64-byte chunk, block [i] read from chunk [i]; every
    block has 16 words, and word [j] of block [i] is the big-endian value of
    the four bytes [64 i + 4 j .. 64 i + 4 j + 3] of the sequence. *)
Theorem parse_message_blocks (padded : list byte) :
  (length padded mod 64 = 0)%nat ->
  length (parse_message padded) = (length padded / 64)%nat
  /\ forall i : nat, (i < length padded / 64)%nat ->
       exists block : list Z,
         parse_message padded !! i = Some block
         /\ length block = 16%nat
         /\ forall j : nat, (j < 16)%nat ->
              exists b0 b1 b2 b3 : byte,
                padded !! (64 * i + 4 * j)%nat = Some b0
                /\ padded !! (64 * i + 4 * j + 1)%nat = Some b1
                /\ padded !! (64 * i + 4 * j + 2)%nat = Some b2
                /\ padded !! (64 * i + 4 * j + 3)%nat = Some b3
                /\ block !! j =
                     Some (byte_val b0 * 2 ^ 24 + byte_val b1 * 2 ^ 16
                           + byte_val b2 * 2 ^ 8 + byte_val b3).
Proof.
  intros Hmod.
  assert (Hn : ((length padded + 63) / 64 = length padded / 64)%nat).
  { pose proof (Nat.div_mod_eq (length padded) 64) as Hd. rewrite Hmod in Hd.
    rewrite Hd at 1.
    replace (64 * (length padded / 64) + 0 + 63)%nat
      with (63 + (length padded / 64) * 64)%nat by lia.
    rewrite Nat.div_add by lia. reflexivity. }
  split; [rewrite length_parse_message; exact Hn|].
  intros i Hi.
  exists (parse_words (take 64 (drop (64 * i) padded))).
  split; [apply lookup_parse_message; rewrite Hn; exact Hi|].
  split; [apply length_parse_words|].
  intros j Hj.
  assert (Hlen : (64 * i + 4 * j + 4 <= length padded)%nat).
  { pose proof (Nat.div_mod_eq (length padded) 64) as Hd. lia. }
  destruct (take_4_drop padded (64 * i + 4 * j) Hlen)
    as (b0 & b1 & b2 & b3 & H0 & H1 & H2 & H3 & Htake).
  exists b0, b1, b2, b3. repeat (split; [assumption|]).
  rewrite lookup_parse_words by exact Hj.
  destruct (chunk_word_bytes padded i j Hj) as [_ E].
  rewrite (E Hlen), Htake, from_bytes_4. reflexivity.
Qed.

Lemma parse_message_blocks_witness :
  (length (repeat x61 64 ++ repeat x62 64) mod 64 = 0)%nat
  /\ length (parse_message (repeat x61 64 ++ repeat x62 64)) = 2%nat
  /\ exists block : list Z,
       parse_message (repeat x61 64 ++ repeat x62 64) !! 1%nat = Some block
       /\ block !! 0%nat = Some 0x62626262.
Proof.
  split; [reflexivity|].
  destruct (parse_message_blocks (repeat x61 64 ++ repeat x62 64) eq_refl)
    as [Hlen Hblocks].
  split; [exact Hlen|].
  destruct (Hblocks 1%nat ltac:(cbn; lia)) as (block & Hblock & _ & Hwords).
  exists block. split; [exact Hblock|].
  destruct (Hwords 0%nat ltac:(lia)) as (b0 & b1 & b2 & b3 & H0 & H1 & H2 & H3 & Hw).
  cbn in H0, H1, H2, H3.
  injection H0 as <-. injection H1 as <-. injection H2 as <-. injection H3 as <-.
  exact Hw.
Defined.

(** C8, as the code has it.  [parse_message] has no check of the length: on a
    byte sequence whose length is not a multiple of 64 it returns one block
    more than there are full chunks, every block still of 16 words; word [j]
    of block [i] is the big-endian value of those of the bytes
    [64 i + 4 j .. 64 i + 4 j + 3] that exist (0 when none does). *)
Theorem parse_message_partial_chunk (padded : list byte) :
  (length padded mod 64 <> 0)%nat ->
  length (parse_message padded) = (length padded / 64 + 1)%nat
  /\ forall i : nat, (i <= length padded / 64)%nat ->
       exists block : list Z,
         parse_message padded !! i = Some block
         /\ length block = 16%nat
         /\ forall j : nat, (j < 16)%nat ->
              block !! j =
                Some (from_bytes
                        (take (min 4 (length padded - 64 * i - 4 * j))
                              (drop (64 * i + 4 * j) padded))).
Proof.
  intros Hmod.
  assert (Hn : ((length padded + 63) / 64 = length padded / 64 + 1)%nat).
  { pose proof (Nat.div_mod_eq (length padded) 64) as Hd.
    pose proof (Nat.mod_upper_bound (length padded) 64 ltac:(lia)) as Hlt.
    symmetry. apply (Nat.div_unique _ 64 _ (length padded mod 64 - 1)%nat); lia. }
  split; [rewrite length_parse_message; exact Hn|].
  intros i Hi.
  exists (parse_words (take 64 (drop (64 * i) padded))).
  split; [apply lookup_parse_message; rewrite Hn; lia|].
  split; [apply length_parse_words|].
  intros j Hj. rewrite lookup_parse_words by exact Hj.
  destruct (chunk_word_bytes padded i j Hj) as [E _]. rewrite E. reflexivity.
Qed.

Lemma parse_message_partial_chunk_witness :
  (length [x01; x02; x03; x04; x05; x06] mod 64 <> 0)%nat
  /\ length (parse_message [x01; x02; x03; x04; x05; x06]) = 1%nat.
Proof.
  assert (H : (length [x01; x02; x03; x04; x05; x06] mod 64 <> 0)%nat)
    by (cbn; lia).
  split; [exact H|].
  exact (proj1 (parse_message_partial_chunk [x01; x02; x03; x04; x05; x06] H)).
Defined.

(** C8, as stated, fails: six bytes are not a multiple of 64, and the parser
    returns a block. *)
Lemma parse_message_accepts_partial_chunk :
  (length [x01; x02; x03; x04; x05; x06] mod 64 <> 0)%nat
  /\ parse_message [x01; x02; x03; x04; x05; x06]
     = [[0x01020304; 0x0506; 0; 0; 0; 0; 0; 0; 0; 0; 0; 0; 0; 0; 0; 0]].
Proof. split; [cbn; lia | reflexivity]. Qed.

(** ** Loops *)

Lemma index_nth {A : Type} (l : list A) (i : nat) (d : A) :
  (i < length l)%nat -> index l i = Ok (nth i l d).
Proof.
  revert i. induction l as [|x l IH]; intros [|i] Hi; cbn [length] in Hi;
    try lia; [reflexivity|].
  apply (IH i). lia.
Qed.

(** The invariant rule of a [for u in range(t, t + n)] loop. *)
Lemma for_each_seq_inv {St : Type} (P : nat -> St -> Prop)
    (body : St -> nat -> result St) :
  forall (n t : nat) (s : St),
    P t s ->
    (forall (u : nat) (s0 : St),
        (t <= u < t + n)%nat -> P u s0 ->
        exists s1, body s0 u = Ok s1 /\ P (S u) s1) ->
    exists s', for_each (seq t n) body s = Ok s' /\ P (t + n)%nat s'.
Proof.
  induction n as [|n IH]; intros t s HP Hstep; cbn [seq for_each].
  - exists s. split; [reflexivity|]. rewrite Nat.add_0_r. exact HP.
  - destruct (Hstep t s ltac:(lia) HP) as (s1 & E & HP1).
    rewrite E, bind_Ok.
    destruct (IH (S t) s1 HP1) as (s' & E' & HP').
    { intros u s0 Hu. apply Hstep. lia. }
    exists s'. split; [exact E'|].
    replace (t + S n)%nat with (S t + n)%nat by lia. exact HP'.
Qed.

(** ** The round functions on 32-bit words *)

Lemma Forall_word_nth (l : list Z) (i : nat) : Forall word l -> word (nth i l 0).
Proof.
  intros H. destruct (Nat.lt_ge_cases i (length l)) as [Hi|Hi].
  - rewrite Forall_forall in H. apply H. apply list_elem_of_In, nth_In, Hi.
  - rewrite nth_overflow by exact Hi. unfold word. lia.
Qed.

Lemma sigma0_256_small_spec (x : Z) :
  word x -> sigma0_256_small x = spec_sigma0_small x.
Proof.
  intros Hx. unfold sigma0_256_small, spec_sigma0_small, shr.
  rewrite !rotr_spec_rotr by (assumption || lia). reflexivity.
Qed.

Lemma sigma1_256_small_spec (x : Z) :
  word x -> sigma1_256_small x = spec_sigma1_small x.
Proof.
  intros Hx. unfold sigma1_256_small, spec_sigma1_small, shr.
  rewrite !rotr_spec_rotr by (assumption || lia). reflexivity.
Qed.

Lemma sigma0_256_spec (x : Z) : word x -> sigma0_256 x = spec_Sigma0 x.
Proof.
  intros Hx. unfold sigma0_256, spec_Sigma0.
  rewrite !rotr_spec_rotr by (assumption || lia). reflexivity.
Qed.

Lemma sigma1_256_spec (x : Z) : word x -> sigma1_256 x = spec_Sigma1 x.
Proof.
  intros Hx. unfold sigma1_256, spec_Sigma1.
  rewrite !rotr_spec_rotr by (assumption || lia). reflexivity.
Qed.

(** Python's [~x] is the complement of an unbounded integer; under [& z]
    with a 32-bit [z] only its low 32 bits count. *)
Lemma ch_spec (x y z : Z) : word z -> ch x y z = spec_Ch x y z.
Proof.
  intros Hz. unfold ch, spec_Ch, spec_not. f_equal.
  apply Z.bits_inj'. intros i Hi. rewrite !Z.land_spec.
  destruct (Z_lt_le_dec i 32) as [Hlt|Hge].
  - rewrite Z.mod_pow2_bits_low by lia. reflexivity.
  - rewrite (word_testbit_high z i Hz Hge), !andb_false_r. reflexivity.
Qed.

Lemma maj_spec (x y z : Z) : maj x y z = spec_Maj x y z.
Proof. reflexivity. Qed.

(** ** The message schedule *)

Lemma schedule_step_inv (block : list Z) (u : nat) (w : list Z) :
  (16 <= u)%nat ->
  spec_schedule block u w /\ Forall word w ->
  exists w', schedule_step w u = Ok w'
             /\ spec_schedule block (S u) w' /\ Forall word w'.
Proof.
  intros Hu [(Hlen & Htake & Hrec) Hw]. unfold schedule_step.
  rewrite (index_nth w (u - 15) 0), bind_Ok by lia.
  rewrite (index_nth w (u - 2) 0), bind_Ok by lia.
  rewrite (index_nth w (u - 16) 0), bind_Ok by lia.
  rewrite (index_nth w (u - 7) 0), bind_Ok by lia.
  eexists. split; [reflexivity|].
  split; [split; [|split]|].
  - rewrite length_app. cbn [length]. lia.
  - rewrite take_app_le by lia. exact Htake.
  - intros t Ht.
    rewrite (app_nth1 w _ 0 (n := t - 16)), (app_nth1 w _ 0 (n := t - 15)),
      (app_nth1 w _ 0 (n := t - 7)), (app_nth1 w _ 0 (n := t - 2)) by lia.
    destruct (Nat.eq_dec t u) as [->|Hne].
    + rewrite app_nth2 by lia. rewrite Hlen, Nat.sub_diag. cbn [nth].
      rewrite land_mask32.
      rewrite sigma0_256_small_spec, sigma1_256_small_spec
        by (apply Forall_word_nth; exact Hw).
      reflexivity.
    + rewrite app_nth1 by lia. apply Hrec. lia.
  - apply Forall_app. split; [exact Hw|].
    apply Forall_cons. split; [apply word_land_mask32 | apply Forall_nil_2].
Qed.

Lemma schedule_loop (block : list Z) :
  length block = 16%nat -> Forall word block ->
  exists w, for_each (seq 16 48) schedule_step block = Ok w
            /\ spec_schedule block 64 w /\ Forall word w.
Proof.
  intros Hlen Hw.
  apply (for_each_seq_inv
           (fun u w => spec_schedule block u w /\ Forall word w)
           schedule_step 48 16 block).
  - split; [|exact Hw]. split; [exact Hlen|]. split.
    + apply take_ge. lia.
    + intros t Ht. lia.
  - intros u w Hu HP. apply schedule_step_inv; [lia | exact HP].
Qed.

(** ** The rounds *)

Lemma K_256_words : Forall word K_256.
Proof.
  unfold K_256. repeat (apply Forall_cons; split; [unfold word; lia|]).
  apply Forall_nil_2.
Qed.

Lemma round_spec (w : list Z) (v : working) (t : nat) :
  (t < 64)%nat -> (64 <= length w)%nat -> Forall word w ->
  Forall word (working_list v) ->
  round w v t = Ok (spec_round (nth t K_256 0) (nth t w 0) v)
  /\ Forall word (working_list (spec_round (nth t K_256 0) (nth t w 0) v)).
Proof.
  intros Ht Hlen Hw Hv.
  destruct v as [[[[[[[a b] c] d] e] f] g] h].
  cbn [working_list] in Hv.
  repeat (apply Forall_cons in Hv; destruct Hv as [? Hv]).
  unfold round, spec_round.
  rewrite (index_nth K_256 t 0), bind_Ok by (cbn [length K_256]; lia).
  rewrite (index_nth w t 0), bind_Ok by lia.
  cbv zeta. rewrite !land_mask32.
  rewrite sigma0_256_spec, sigma1_256_spec, ch_spec, maj_spec by assumption.
  split; [reflexivity|].
  cbn [working_list].
  repeat (apply Forall_cons; split; [first [assumption | apply word_mod]|]).
  apply Forall_nil_2.
Qed.

Lemma rounds_loop (w : list Z) (v : working) :
  (64 <= length w)%nat -> Forall word w -> Forall word (working_list v) ->
  for_each (seq 0 64) (round w) v = Ok (spec_rounds 64 w v)
  /\ Forall word (working_list (spec_rounds 64 w v)).
Proof.
  intros Hlen Hw Hv.
  destruct (for_each_seq_inv
              (fun u s => s = spec_rounds u w v /\ Forall word (working_list s))
              (round w) 64 0 v) as (s' & E & -> & Hs').
  - split; [reflexivity | exact Hv].
  - intros u s Hu [-> Hs].
    destruct (round_spec w (spec_rounds u w v) u ltac:(lia) Hlen Hw Hs) as [E Hw'].
    eexists. split; [exact E|]. split; [reflexivity | exact Hw'].
  - split; [exact E | exact Hs'].
Qed.

(** ** One compression step *)

Lemma add_loop (a b c d e f g h s0 s1 s2 s3 s4 s5 s6 s7 : Z) :
  for_each (seq 0 8) (add_step [a; b; c; d; e; f; g; h])
    [s0; s1; s2; s3; s4; s5; s6; s7]
  = Ok [ (s0 + a) mod 2 ^ 32; (s1 + b) mod 2 ^ 32; (s2 + c) mod 2 ^ 32;
         (s3 + d) mod 2 ^ 32; (s4 + e) mod 2 ^ 32; (s5 + f) mod 2 ^ 32;
         (s6 + g) mod 2 ^ 32; (s7 + h) mod 2 ^ 32 ].
Proof. rewrite <- !land_mask32. reflexivity. Qed.

Lemma compress_eq (s0 s1 s2 s3 s4 s5 s6 s7 : Z) (block : list Z) :
  Forall word [s0; s1; s2; s3; s4; s5; s6; s7] ->
  length block = 16%nat -> Forall word block ->
  exists (w : list Z) (a b c d e f g h : Z),
    for_each (seq 16 48) schedule_step block = Ok w
    /\ spec_schedule block 64 w
    /\ spec_rounds 64 w (s0, s1, s2, s3, s4, s5, s6, s7) = (a, b, c, d, e, f, g, h)
    /\ compress [s0; s1; s2; s3; s4; s5; s6; s7] block
       = Ok [ (s0 + a) mod 2 ^ 32; (s1 + b) mod 2 ^ 32; (s2 + c) mod 2 ^ 32;
              (s3 + d) mod 2 ^ 32; (s4 + e) mod 2 ^ 32; (s5 + f) mod 2 ^ 32;
              (s6 + g) mod 2 ^ 32; (s7 + h) mod 2 ^ 32 ].
Proof.
  intros Hs Hlen Hb.
  destruct (schedule_loop block Hlen Hb) as (w & Ew & Hsched & Hw).
  assert (Hw64 : (64 <= length w)%nat) by (destruct Hsched as [-> _]; lia).
  destruct (rounds_loop w (s0, s1, s2, s3, s4, s5, s6, s7) Hw64 Hw Hs) as [Er _].
  destruct (spec_rounds 64 w (s0, s1, s2, s3, s4, s5, s6, s7))
    as [[[[[[[a b] c] d] e] f] g] h] eqn:Erounds.
  exists w, a, b, c, d, e, f, g, h.
  split; [exact Ew|]. split; [exact Hsched|]. split; [exact Erounds|].
  unfold compress. rewrite Ew, bind_Ok, Er, bind_Ok.
  apply add_loop.
Qed.

Lemma compress_words (h block : list Z) :
  length h = 8%nat -> Forall word h ->
  length block = 16%nat -> Forall word block ->
  exists h', compress h block = Ok h' /\ length h' = 8%nat /\ Forall word h'.
Proof.
  intros Hlen Hh Hbl Hb.
  destruct h as [|s0 [|s1 [|s2 [|s3 [|s4 [|s5 [|s6 [|s7 [|]]]]]]]]];
    try discriminate Hlen.
  destruct (compress_eq s0 s1 s2 s3 s4 s5 s6 s7 block Hh Hbl Hb)
    as (w & a & b & c & d & e & f & g & hh & _ & _ & _ & E).
  eexists. split; [exact E|]. split; [reflexivity|].
  repeat (apply Forall_cons; split; [apply word_mod|]). apply Forall_nil_2.
Qed.

(** ** Formatting *)

Lemma zeros_shift (n : nat) (acc : string) :
  (zeros n ++ String "0" acc)%string = String "0" (zeros n ++ acc)%string.
Proof.
  induction n as [|n IH]; [reflexivity|].
  cbn [zeros String.append]. rewrite IH. reflexivity.
Qed.

Lemma fixed_hex_0 (n : nat) : forall acc : string,
  fixed_hex n 0 acc = (zeros n ++ acc)%string.
Proof.
  induction n as [|n IH]; intros acc; [reflexivity|].
  cbn [fixed_hex]. change (0 / 16) with 0. change (hex_digit (0 mod 16)) with "0"%char.
  rewrite IH. apply zeros_shift.
Qed.

(** The digits [hex_digits] writes, filled with zeros to a width [n] that
    holds [x], are the [n] digits of [x]: the fuel cuts no digit off. *)
Lemma hex_digits_fixed (fuel : nat) : forall (n : nat) (x : Z) (acc : string),
  0 <= x < 16 ^ Z.of_nat fuel -> x < 16 ^ Z.of_nat n ->
  (1 <= fuel)%nat -> (1 <= n)%nat ->
  exists d : nat,
    (1 <= d <= n)%nat
    /\ String.length (hex_digits fuel x acc) = (d + String.length acc)%nat
    /\ (zeros (n - d) ++ hex_digits fuel x acc)%string = fixed_hex n x acc.
Proof.
  induction fuel as [|fuel IH]; intros n x acc Hx Hn Hf Hn1; [lia|].
  destruct n as [|n]; [lia|]. cbn [hex_digits fixed_hex].
  destruct (Z.eqb_spec (x / 16) 0) as [E|E].
  - exists 1%nat. split; [lia|]. split; [reflexivity|].
    rewrite E, fixed_hex_0. replace (S n - 1)%nat with n by lia. reflexivity.
  - assert (H16 : 16 <= x).
    { destruct (Z_lt_le_dec x 16) as [Hlt|Hge]; [|exact Hge].
      exfalso. apply E. apply Z.div_small. lia. }
    rewrite Nat2Z.inj_succ, Z.pow_succ_r in Hx, Hn by lia.
    assert (Hf' : (1 <= fuel)%nat).
    { destruct fuel; [|lia]. change (16 ^ Z.of_nat 0) with 1 in Hx. lia. }
    assert (Hn' : (1 <= n)%nat).
    { destruct n; [|lia]. change (16 ^ Z.of_nat 0) with 1 in Hn. lia. }
    destruct (IH n (x / 16) (String (hex_digit (x mod 16)) acc))
      as (d & Hd & Hlen & Hfix); try assumption.
    + split; [apply Z.div_pos; lia | apply Z.div_lt_upper_bound; lia].
    + apply Z.div_lt_upper_bound; lia.
    + exists (S d). split; [lia|]. split.
      * rewrite Hlen. cbn [String.length]. lia.
      * replace (S n - S d)%nat with (n - d)%nat by lia. exact Hfix.
Qed.

(** The digit characters [f'{x:08x}'] writes are those of the table. *)
Lemma hex_digit_table (d : Z) : 0 <= d < 16 -> hex_digit d = spec_hex_char d.
Proof.
  intros Hd.
  assert (H : d = 0 \/ d = 1 \/ d = 2 \/ d = 3 \/ d = 4 \/ d = 5 \/ d = 6
              \/ d = 7 \/ d = 8 \/ d = 9 \/ d = 10 \/ d = 11 \/ d = 12
              \/ d = 13 \/ d = 14 \/ d = 15) by lia.
  repeat (destruct H as [->|H]; [reflexivity|]). rewrite H. reflexivity.
Qed.

Lemma fixed_hex_8 (x : Z) : fixed_hex 8 x EmptyString = spec_hex8 x.
Proof.
  unfold spec_hex8. cbn [fixed_hex].
  rewrite !Z.div_div by lia.
  rewrite !hex_digit_table by (apply Z.mod_pos_bound; lia).
  reflexivity.
Qed.

Lemma format_08x_word (x : Z) : word x -> format_08x x = spec_hex8 x.
Proof.
  intros [Hx0 Hx]. unfold format_08x.
  replace (x <? 0) with false by (symmetry; apply Z.ltb_ge; exact Hx0).
  rewrite <- fixed_hex_8. unfold zfill, hex.
  destruct (hex_digits_fixed (S (Z.to_nat (Z.log2 x))) 8 x EmptyString)
    as (d & Hd & Hlen & Hfix).
  - split; [exact Hx0|].
    rewrite Nat2Z.inj_succ, Z2Nat.id by apply Z.log2_nonneg.
    destruct (Z.eq_dec x 0) as [->|Hne]; [reflexivity|].
    pose proof (Z.log2_spec x ltac:(lia)) as [_ Hlog].
    eapply Z.lt_le_trans; [exact Hlog|].
    apply Z.pow_le_mono_l. pose proof (Z.log2_nonneg x). lia.
  - exact Hx.
  - lia.
  - lia.
  - rewrite Hlen. cbn [String.length]. rewrite Nat.add_0_r. exact Hfix.
Qed.

Lemma hex_digit_lower (d : Z) : lower_hex (hex_digit d).
Proof.
  unfold lower_hex, hex_digit.
  destruct (nth_in_or_default (Z.to_nat d)
              (list_ascii_of_string "0123456789abcdef") "0"%char) as [H|H].
  - exact H.
  - rewrite H. left. reflexivity.
Qed.

Lemma spec_hex_char_lower (d : Z) : lower_hex (spec_hex_char (d mod 16)).
Proof.
  rewrite <- hex_digit_table by (apply Z.mod_pos_bound; lia).
  apply hex_digit_lower.
Qed.

Lemma spec_hex8_lower (x : Z) (s : string) :
  Forall lower_hex (list_ascii_of_string s) ->
  Forall lower_hex (list_ascii_of_string (spec_hex8 x ++ s)%string).
Proof.
  intros Hs. unfold spec_hex8. cbn [String.append list_ascii_of_string].
  repeat (apply Forall_cons; split; [apply spec_hex_char_lower|]). exact Hs.
Qed.

(** Zero-filling at work, and the two branches of the sign. *)
Example format_08x_examples :
  format_08x 0xabc = "00000abc"%string
  /\ format_08x 0 = "00000000"%string
  /\ format_08x 0xFFFFFFFF = "ffffffff"%string
  /\ format_08x 0x123456789 = "123456789"%string
  /\ format_08x (-255) = "-00000ff"%string.
Proof. repeat split. Qed.

(** ** The pipeline *)

Lemma sha256_hash_computation_cons (block : list Z) (rest : list (list Z)) :
  sha256_hash_computation (block :: rest) =
    (h ← compress h_initial block; Ok (Some h)).
Proof.
  unfold sha256_hash_computation. cbn [for_return].
  destruct (compress h_initial block); reflexivity.
Qed.

Lemma h_initial_words : Forall word h_initial.
Proof.
  unfold h_initial. repeat (apply Forall_cons; split; [unfold word; lia|]).
  apply Forall_nil_2.
Qed.

Lemma parse_words_words (block : list byte) : Forall word (parse_words block).
Proof.
  rewrite parse_words_eq. apply Forall_fmap, Forall_forall. intros j _.
  cbn. pose proof (from_bytes_range (slice block j (j + 4))) as [H0 H1].
  split; [exact H0|]. eapply Z.lt_le_trans; [exact H1|].
  change (2 ^ 32) with (256 ^ 4). apply Z.pow_le_mono_r; [lia|].
  unfold len, slice. rewrite length_take. lia.
Qed.

Lemma padded_length (message padded : list byte) :
  padding message = Ok padded ->
  len message < 2 ^ 61
  /\ len padded = len message + 9 + (55 - len message) mod 64.
Proof.
  rewrite padding_eq.
  destruct (Z.leb_spec (2 ^ 61) (len message)) as [Hbig|Hsmall]; [discriminate|].
  intros [= <-]. split; [exact Hsmall | apply len_padded].
Qed.

(** What [sha256] does on a message that [padding] accepts. *)
Lemma sha256_padded (message padded : list byte) :
  padding message = Ok padded ->
  exists (block : list Z) (rest : list (list Z)) (h0 h1 h2 h3 h4 h5 h6 h7 : Z),
    parse_message padded = block :: rest
    /\ compress h_initial block = Ok [h0; h1; h2; h3; h4; h5; h6; h7]
    /\ Forall word [h0; h1; h2; h3; h4; h5; h6; h7]
    /\ sha256_hash_computation (parse_message padded)
       = Ok (Some [h0; h1; h2; h3; h4; h5; h6; h7])
    /\ sha256 message
       = Ok (spec_hex8 h0 ++ spec_hex8 h1 ++ spec_hex8 h2 ++ spec_hex8 h3
             ++ spec_hex8 h4 ++ spec_hex8 h5 ++ spec_hex8 h6 ++ spec_hex8 h7)%string.
Proof.
  intros Hpad.
  destruct (padded_length message padded Hpad) as [_ Hlen].
  pose proof (len_nonneg message) as Hm.
  pose proof (Z.mod_pos_bound (55 - len message) 64 ltac:(lia)) as Hk.
  pose proof (length_parse_message padded) as Hblocks.
  pose proof (Forall_parse_message_16 padded) as H16.
  assert (Hw : Forall (Forall word) (parse_message padded)).
  { rewrite parse_message_eq. apply Forall_fmap, Forall_forall.
    intros i _. apply parse_words_words. }
  destruct (parse_message padded) as [|block rest] eqn:Eparse.
  { exfalso. cbn [length] in Hblocks. symmetry in Hblocks.
    apply Nat.div_small_iff in Hblocks; [|lia]. unfold len in *. lia. }
  apply Forall_cons in H16. destruct H16 as [H16 _].
  apply Forall_cons in Hw. destruct Hw as [Hw _].
  destruct (compress_words h_initial block eq_refl h_initial_words H16 Hw)
    as (h' & Ec & Hlen' & Hw').
  destruct h' as [|h0 [|h1 [|h2 [|h3 [|h4 [|h5 [|h6 [|h7 [|]]]]]]]]];
    try discriminate Hlen'.
  exists block, rest, h0, h1, h2, h3, h4, h5, h6, h7.
  split; [reflexivity|]. split; [exact Ec|]. split; [exact Hw'|].
  assert (Hcomp : sha256_hash_computation (block :: rest)
                  = Ok (Some [h0; h1; h2; h3; h4; h5; h6; h7])).
  { rewrite sha256_hash_computation_cons, Ec. reflexivity. }
  split; [exact Hcomp|].
  unfold sha256. rewrite Hpad, bind_Ok. cbv zeta. rewrite Eparse, Hcomp, bind_Ok.
  f_equal. cbn [map String.concat].
  repeat (apply Forall_cons in Hw'; destruct Hw' as [? Hw']).
  rewrite !format_08x_word by assumption. reflexivity.
Qed.

(** ** The claims on the compression step and on the pipeline *)

(** C3. For an 8-word state and a 16-word block, the loop body of
    [sha256_hash_computation] first extends the block to a 64-word schedule
    [w] with [w[t] = (w[t-16] + s0(w[t-15]) + w[t-7] + s1(w[t-2])) mod 2^32]
    for [t = 16 .. 63], then runs the 64 rounds of the T1/T2 transformation
    on working variables seeded from the state, and returns the state whose
    word [i] is [(state[i] + working[i]) mod 2^32], [a] at index 0 and [h] at
    index 7. *)
Theorem compress_step (state block : list Z) :
  length state = 8%nat -> Forall word state ->
  length block = 16%nat -> Forall word block ->
  exists w vars state' : list Z,
    for_each (seq 16 48) schedule_step block = Ok w
    /\ length w = 64%nat
    /\ take 16 w = block
    /\ (forall t : nat, (16 <= t < 64)%nat ->
          nth t w 0 =
            (nth (t - 16) w 0 + spec_sigma0_small (nth (t - 15) w 0)
             + nth (t - 7) w 0 + spec_sigma1_small (nth (t - 2) w 0)) mod 2 ^ 32)
    /\ vars = working_list (spec_rounds 64 w (spec_seed state))
    /\ compress state block = Ok state'
    /\ length state' = 8%nat
    /\ (forall i : nat, (i < 8)%nat ->
          nth i state' 0 = (nth i state 0 + nth i vars 0) mod 2 ^ 32).
Proof.
  intros Hlen Hs Hbl Hb.
  destruct state as [|s0 [|s1 [|s2 [|s3 [|s4 [|s5 [|s6 [|s7 [|]]]]]]]]];
    try discriminate Hlen.
  destruct (compress_eq s0 s1 s2 s3 s4 s5 s6 s7 block Hs Hbl Hb)
    as (w & a & b & c & d & e & f & g & h & Ew & (Hw & Htake & Hrec) & Er & Ec).
  exists w, [a; b; c; d; e; f; g; h].
  eexists. split; [exact Ew|]. split; [exact Hw|]. split; [exact Htake|].
  split; [exact Hrec|].
  split; [unfold spec_seed; cbn [nth]; rewrite Er; reflexivity|].
  split; [exact Ec|]. split; [reflexivity|].
  intros i Hi.
  do 8 (destruct i as [|i]; [reflexivity|]). lia.
Qed.

Lemma compress_step_witness :
  (length h_initial = 8%nat /\ Forall word h_initial
   /\ length (0x61626380 :: repeat 0 14 ++ [0x18]) = 16%nat
   /\ Forall word (0x61626380 :: repeat 0 14 ++ [0x18]))
  /\ exists w vars state' : list Z,
       for_each (seq 16 48) schedule_step (0x61626380 :: repeat 0 14 ++ [0x18]) = Ok w
       /\ length w = 64%nat
       /\ take 16 w = 0x61626380 :: repeat 0 14 ++ [0x18]
       /\ (forall t : nat, (16 <= t < 64)%nat ->
             nth t w 0 =
               (nth (t - 16) w 0 + spec_sigma0_small (nth (t - 15) w 0)
                + nth (t - 7) w 0 + spec_sigma1_small (nth (t - 2) w 0)) mod 2 ^ 32)
       /\ vars = working_list (spec_rounds 64 w (spec_seed h_initial))
       /\ compress h_initial (0x61626380 :: repeat 0 14 ++ [0x18]) = Ok state'
       /\ length state' = 8%nat
       /\ (forall i : nat, (i < 8)%nat ->
             nth i state' 0 = (nth i h_initial 0 + nth i vars 0) mod 2 ^ 32).
Proof.
  assert (Hb : Forall word (0x61626380 :: repeat 0 14 ++ [0x18])).
  { cbn [repeat app]. repeat (apply Forall_cons; split; [unfold word; lia|]).
    apply Forall_nil_2. }
  split; [repeat split; [apply h_initial_words | exact Hb]|].
  exact (compress_step h_initial (0x61626380 :: repeat 0 14 ++ [0x18])
           eq_refl h_initial_words eq_refl Hb).
Defined.

(** C9. Whenever [sha256] returns, the value is the eight words of the state
    that [sha256_hash_computation] returned, each a 32-bit word written as
    eight lowercase hexadecimal digits, most significant first and zero-filled
    ([spec_hex8], with the characters of the table [spec_hex_char]):
    64 characters, that is 32 bytes, with no separator and no prefix.  It
    returns for every message below 2^61 bytes; at 2^61 bytes and above
    [padding] raises [OverflowError]. *)
Theorem sha256_digest_format (message : list byte) :
  match sha256 message with
  | Ok digest =>
      String.length digest = 64%nat
      /\ Forall lower_hex (list_ascii_of_string digest)
      /\ exists (padded : list byte) (h0 h1 h2 h3 h4 h5 h6 h7 : Z),
           padding message = Ok padded
           /\ sha256_hash_computation (parse_message padded)
              = Ok (Some [h0; h1; h2; h3; h4; h5; h6; h7])
           /\ Forall word [h0; h1; h2; h3; h4; h5; h6; h7]
           /\ digest
              = (spec_hex8 h0 ++ spec_hex8 h1 ++ spec_hex8 h2 ++ spec_hex8 h3
                 ++ spec_hex8 h4 ++ spec_hex8 h5 ++ spec_hex8 h6 ++ spec_hex8 h7)%string
  | Raise e => e = OverflowError /\ 2 ^ 61 <= len message
  end.
Proof.
  destruct (padding message) as [padded|e] eqn:Hpad.
  - destruct (sha256_padded message padded Hpad)
      as (block & rest & h0 & h1 & h2 & h3 & h4 & h5 & h6 & h7
          & _ & _ & Hw & Hcomp & Hsha).
    rewrite Hsha. split; [reflexivity|]. split.
    + do 7 apply spec_hex8_lower.
      unfold spec_hex8. cbn [list_ascii_of_string].
      repeat (apply Forall_cons; split; [apply spec_hex_char_lower|]).
      apply Forall_nil_2.
    + exists padded, h0, h1, h2, h3, h4, h5, h6, h7.
      split; [reflexivity|]. split; [exact Hcomp|]. split; [exact Hw|].
      reflexivity.
  - unfold sha256. rewrite Hpad, bind_Raise.
    rewrite padding_eq in Hpad.
    destruct (Z.leb_spec (2 ^ 61) (len message)) as [Hbig|Hsmall];
      [|discriminate Hpad].
    injection Hpad as <-. split; [reflexivity | exact Hbig].
Qed.

(** C10. The output of [padding] has at least 64 bytes, so [parse_message]
    gives a first block, the loop body of [sha256_hash_computation] runs on
    it and returns a state: the path that falls off the end of the function
    and returns [None] is not taken inside [sha256], which therefore never
    fails on iterating over [None].  (When [padding] raises, on 2^61 bytes or
    more, [sha256_hash_computation] is not called at all.) *)
Theorem sha256_never_falls_through (message : list byte) :
  match padding message with
  | Ok padded =>
      (64 <= length padded)%nat
      /\ exists (block : list Z) (rest : list (list Z)) (h : list Z),
           parse_message padded = block :: rest
           /\ compress h_initial block = Ok h
           /\ sha256_hash_computation (parse_message padded) = Ok (Some h)
  | Raise e => e = OverflowError /\ 2 ^ 61 <= len message
  end
  /\ sha256 message <> Raise TypeError.
Proof.
  destruct (padding message) as [padded|e] eqn:Hpad.
  - destruct (sha256_padded message padded Hpad)
      as (block & rest & h0 & h1 & h2 & h3 & h4 & h5 & h6 & h7
          & Hparse & Ec & _ & Hcomp & Hsha).
    split; [split|].
    + destruct (padded_length message padded Hpad) as [_ Hlen].
      pose proof (len_nonneg message).
      unfold len in *. Z.div_mod_to_equations. lia.
    + exists block, rest, [h0; h1; h2; h3; h4; h5; h6; h7].
      split; [exact Hparse|]. split; [exact Ec | exact Hcomp].
    + rewrite Hsha. discriminate.
  - assert (Hsha : sha256 message = Raise e)
      by (unfold sha256; rewrite Hpad; apply bind_Raise).
    rewrite padding_eq in Hpad.
    destruct (Z.leb_spec (2 ^ 61) (len message)) as [Hbig|Hsmall];
      [|discriminate Hpad].
    injection Hpad as <-.
    split; [split; [reflexivity | exact Hbig]|].
    rewrite Hsha. discriminate.
Qed.

Lemma sha256_empty :
  sha256 (encode "")
  = Ok "e3b0c44298fc1c149afbf4c8996fb92427ae41e4649b934ca495991b7852b855"%string.
Proof. vm_compute. reflexivity. Qed.

Lemma sha256_abc :
  sha256 (encode "abc")
  = Ok "ba7816bf8f01cfea414140de5dae2223b00361a396177a9cb410ff61f20015ad"%string.
Proof. vm_compute. reflexivity. Qed.

(** C2, as the code has it.  On the empty input [sha256] returns
    e3b0c442...7852b855 and on the bytes of "abc" it returns
    ba7816bf...f20015ad, each of 64 hexadecimal characters. *)
Theorem sha256_known_answers :
  sha256 (encode "")
  = Ok "e3b0c44298fc1c149afbf4c8996fb92427ae41e4649b934ca495991b7852b855"%string
  /\ sha256 (encode "abc")
     = Ok "ba7816bf8f01cfea414140de5dae2223b00361a396177a9cb410ff61f20015ad"%string
  /\ String.length
       "e3b0c44298fc1c149afbf4c8996fb92427ae41e4649b934ca495991b7852b855" = 64%nat
  /\ String.length
       "ba7816bf8f01cfea414140de5dae2223b00361a396177a9cb410ff61f20015ad" = 64%nat.
Proof.
  split; [exact sha256_empty|]. split; [exact sha256_abc|]. split; reflexivity.
Qed.

(** C2, as stated, fails in each of its parts: the two digests it gives are
    not what [sha256] returns, and they have 63 characters, not 64. *)
Lemma sha256_known_answers_as_stated_fail :
  sha256 (encode "")
  <> Ok "e3b0c44298fc1c149afbf4c8996fb92427ae41e4649b934ca495991b7852b85"%string
  /\ sha256 (encode "abc")
     <> Ok "ba7816bf8f01cfea414140de5dae2223b00361a39617829b8a0c5c85a5f5c5c"%string
  /\ String.length
       "e3b0c44298fc1c149afbf4c8996fb92427ae41e4649b934ca495991b7852b85" = 63%nat
  /\ String.length
       "ba7816bf8f01cfea414140de5dae2223b00361a39617829b8a0c5c85a5f5c5c" = 63%nat.
Proof.
  rewrite sha256_empty, sha256_abc.
  split; [intros H; discriminate H|].
  split; [intros H; discriminate H|].
  split; reflexivity.
Qed.

(** C1 fails on the code.  [sha256_hash_computation] returns at the end of
    the first iteration of its loop over the blocks, so the blocks after the
    first never reach the digest: the 56-byte NIST message, padded to two
    blocks, gets the state after its first block instead of the digest that
    folding both blocks gives, and two 65-byte messages that differ in their
    last byte get the same digest. *)
Theorem sha256_folds_first_block_only :
  (forall (block : list Z) (rest : list (list Z)),
      sha256_hash_computation (block :: rest) = sha256_hash_computation [block])
  /\ (padded ← padding nist_two_blocks; Ok (length (parse_message padded)))
     = Ok 2%nat
  /\ sha256 nist_two_blocks
     = Ok "85e655d6417a17953363376a624cde5c76e09589cac5f811cc4b32c1f20e533a"%string
  /\ spec_digest nist_two_blocks
     = Ok "248d6a61d20638b8e5c026930c3e6039a33ce45964ff2167f6ecedd419db06c1"%string
  /\ sha256 (repeat x61 64 ++ [x78]) = sha256 (repeat x61 64 ++ [x79])
  /\ spec_digest (repeat x61 64 ++ [x78]) <> spec_digest (repeat x61 64 ++ [x79]).
Proof.
  split; [intros block rest; rewrite !sha256_hash_computation_cons; reflexivity|].
  split; [vm_compute; reflexivity|].
  split; [vm_compute; reflexivity|].
  split; [vm_compute; reflexivity|].
  split; [vm_compute; reflexivity|].
  vm_compute. intros H. discriminate H.
Qed.

(** * Further properties of the code *)

(** ** The bit functions *)

Lemma testbit_rotr_any (x n i : Z) :
  word x -> 0 <= n <= 32 -> 0 <= i ->
  Z.testbit (rotr x n) i =
    if i <? 32 then Z.testbit x ((i + n) mod 32) else false.
Proof.
  intros Hx Hn Hi.
  destruct (Z.eq_dec n 0) as [->|Hn0]; [|destruct (Z.eq_dec n 32) as [->|Hn32]].
  - unfold rotr. rewrite Z.lor_spec, Z.land_spec, Z.shiftr_spec, Z.shiftl_spec by lia.
    rewrite Z.add_0_r, mask32_ones, Z.testbit_ones by lia.
    destruct (Z.ltb_spec i 32) as [Hlt|Hge].
    + rewrite (Z.testbit_neg_r x (i - (32 - 0))) by lia.
      rewrite Z.mod_small by lia. apply orb_false_r.
    + rewrite (word_testbit_high x i Hx Hge), !andb_false_r. reflexivity.
  - unfold rotr. rewrite Z.lor_spec, Z.land_spec, Z.shiftr_spec, Z.shiftl_spec by lia.
    rewrite mask32_ones, Z.testbit_ones by lia.
    rewrite (word_testbit_high x (i + 32)) by (assumption || lia).
    replace (i - (32 - 32)) with i by lia.
    destruct (Z.ltb_spec i 32) as [Hlt|Hge].
    + replace (0 <=? i) with true by (symmetry; apply Z.leb_le; lia).
      replace ((i + 32) mod 32) with i
        by (apply Z.mod_unique with (q := 1); lia).
      rewrite andb_true_r. reflexivity.
    + rewrite !andb_false_r. reflexivity.
  - apply testbit_rotr; (assumption || lia).
Qed.

Lemma word_rotr_any (x n : Z) : word x -> 0 <= n <= 32 -> word (rotr x n).
Proof.
  intros Hx Hn. apply testbit_word.
  - apply rotr_nonneg. apply Hx.
  - intros i Hi. rewrite testbit_rotr_any by (assumption || lia).
    replace (i <? 32) with false by (symmetry; apply Z.ltb_ge; lia).
    reflexivity.
Qed.

Lemma word_lxor (x y : Z) : word x -> word y -> word (Z.lxor x y).
Proof.
  intros Hx Hy. apply testbit_word.
  - apply Z.lxor_nonneg. split; intros _; [apply Hy | apply Hx].
  - intros i Hi. rewrite Z.lxor_spec.
    rewrite (word_testbit_high x i Hx Hi), (word_testbit_high y i Hy Hi).
    reflexivity.
Qed.

Lemma word_land_r (x y : Z) : word y -> word (Z.land x y).
Proof.
  intros Hy. apply testbit_word.
  - apply Z.land_nonneg. right. apply Hy.
  - intros i Hi. rewrite Z.land_spec, (word_testbit_high y i Hy Hi).
    apply andb_false_r.
Qed.

Lemma word_shr (x n : Z) : word x -> 0 <= n -> word (shr x n).
Proof.
  intros Hx Hn. unfold shr. apply testbit_word.
  - apply Z.shiftr_nonneg. apply Hx.
  - intros i Hi. rewrite Z.shiftr_spec by lia.
    apply word_testbit_high; [exact Hx | lia].
Qed.

(** X1. [ch] chooses bit by bit: where [x] has a 1 the result has the bit of
    [y], where [x] has a 0 it has the bit of [z].  Python's [~x] is negative
    for a word [x], yet with 32-bit [y] and [z] the result is a 32-bit word,
    whatever integer [x] is. *)
Theorem ch_chooses (x y z : Z) :
  word y -> word z ->
  (forall i : Z, 0 <= i ->
     Z.testbit (ch x y z) i = if Z.testbit x i then Z.testbit y i else Z.testbit z i)
  /\ word (ch x y z).
Proof.
  intros Hy Hz. split.
  - intros i Hi. unfold ch.
    rewrite Z.lxor_spec, !Z.land_spec, Z.lnot_spec by exact Hi.
    destruct (Z.testbit x i), (Z.testbit y i), (Z.testbit z i); reflexivity.
  - unfold ch. apply word_lxor; apply word_land_r; assumption.
Qed.

Lemma ch_chooses_witness :
  (word 0x0000FFFF /\ word 0x12345678)
  /\ word (ch 0xFF00FF00 0x0000FFFF 0x12345678)
  /\ ch 0xFF00FF00 0x0000FFFF 0x12345678 = 0x0034FF78.
Proof.
  assert (Hy : word 0x0000FFFF) by (unfold word; lia).
  assert (Hz : word 0x12345678) by (unfold word; lia).
  split; [split; assumption|].
  split; [|reflexivity].
  exact (proj2 (ch_chooses 0xFF00FF00 0x0000FFFF 0x12345678 Hy Hz)).
Defined.

(** X2. [maj] is the bitwise majority of its three arguments, and a 32-bit
    word when they are. *)
Theorem maj_majority (x y z : Z) :
  word x -> word y -> word z ->
  (forall i : Z, 0 <= i ->
     Z.testbit (maj x y z) i =
       (Z.testbit x i && Z.testbit y i) || (Z.testbit x i && Z.testbit z i)
       || (Z.testbit y i && Z.testbit z i))
  /\ word (maj x y z).
Proof.
  intros Hx Hy Hz. split.
  - intros i Hi. unfold maj. rewrite !Z.lxor_spec, !Z.land_spec.
    destruct (Z.testbit x i), (Z.testbit y i), (Z.testbit z i); reflexivity.
  - unfold maj. repeat apply word_lxor; apply word_land_r; assumption.
Qed.

Lemma maj_majority_witness :
  (word 0xF0F0F0F0 /\ word 0xFF00FF00 /\ word 0x0000FFFF)
  /\ word (maj 0xF0F0F0F0 0xFF00FF00 0x0000FFFF).
Proof.
  assert (Hx : word 0xF0F0F0F0) by (unfold word; lia).
  assert (Hy : word 0xFF00FF00) by (unfold word; lia).
  assert (Hz : word 0x0000FFFF) by (unfold word; lia).
  split; [split; [exact Hx | split; [exact Hy | exact Hz]]|].
  exact (proj2 (maj_majority 0xF0F0F0F0 0xFF00FF00 0x0000FFFF Hx Hy Hz)).
Defined.

(** X3. On 32-bit words rotations compose by adding their counts modulo 32,
    counts 0 and 32 included (both leave the word as it is); so [rotr] by
    [32 - n] undoes [rotr] by [n]. *)
Theorem rotr_compose (x n m : Z) :
  word x -> 0 <= n <= 32 -> 0 <= m <= 32 ->
  rotr (rotr x n) m = rotr x ((n + m) mod 32)
  /\ rotr (rotr x n) (32 - n) = x.
Proof.
  intros Hx Hn Hm.
  assert (Hcomp : forall k, 0 <= k <= 32 ->
            rotr (rotr x n) k = rotr x ((n + k) mod 32)).
  { intros k Hk.
    pose proof (Z.mod_pos_bound (n + k) 32 ltac:(lia)) as Hr.
    apply Z.bits_inj'. intros i Hi.
    rewrite (testbit_rotr_any (rotr x n) k i)
      by (assumption || lia || (apply word_rotr_any; assumption)).
    rewrite (testbit_rotr_any x ((n + k) mod 32) i) by (assumption || lia).
    destruct (Z.ltb_spec i 32) as [Hlt|Hge]; [|reflexivity].
    pose proof (Z.mod_pos_bound (i + k) 32 ltac:(lia)) as Hik.
    rewrite (testbit_rotr_any x n ((i + k) mod 32)) by (assumption || lia).
    replace ((i + k) mod 32 <? 32) with true by (symmetry; apply Z.ltb_lt; lia).
    f_equal. rewrite Z.add_mod_idemp_l, Z.add_mod_idemp_r by lia.
    f_equal. lia. }
  split; [apply Hcomp; exact Hm|].
  rewrite Hcomp by lia. replace (n + (32 - n)) with 32 by lia.
  change (32 mod 32) with 0.
  apply Z.bits_inj'. intros i Hi.
  rewrite testbit_rotr_any by (assumption || lia).
  destruct (Z.ltb_spec i 32) as [Hlt|Hge].
  - rewrite Z.add_0_r, Z.mod_small by lia. reflexivity.
  - symmetry. apply word_testbit_high; assumption.
Qed.

Lemma rotr_compose_witness :
  (word 0x80000001 /\ 0 <= 7 <= 32 /\ 0 <= 25 <= 32)
  /\ rotr (rotr 0x80000001 7) 25 = 0x80000001.
Proof.
  assert (Hx : word 0x80000001) by (unfold word; lia).
  split; [repeat split; (assumption || lia)|].
  exact (proj2 (rotr_compose 0x80000001 7 25 Hx ltac:(lia) ltac:(lia))).
Defined.

(** X4. The mask of [rotr] covers the left-shifted part only, so for a count
    from 0 to 32 the result is not reduced to 32 bits when the argument is not
    a 32-bit word: from [2^(32+n)] on, the result is [2^32] or more. *)
Theorem rotr_unmasked_above_word (x n : Z) :
  0 <= n <= 32 -> 2 ^ (32 + n) <= x -> 2 ^ 32 <= rotr x n.
Proof.
  intros Hn Hx.
  assert (Hpos : 0 < 2 ^ (32 + n)) by (apply Z.pow_pos_nonneg; lia).
  assert (Hs : 2 ^ 32 <= Z.shiftr x n).
  { rewrite Z.shiftr_div_pow2 by lia.
    apply Z.div_le_lower_bound; [apply Z.pow_pos_nonneg; lia|].
    rewrite <- Z.pow_add_r by lia. replace (n + 32) with (32 + n) by lia.
    exact Hx. }
  assert (Hrot : 0 <= rotr x n) by (apply rotr_nonneg; lia).
  assert (Hlog : 32 <= Z.log2 (rotr x n)).
  { unfold rotr. rewrite Z.log2_lor.
    - apply Z.max_le_iff. left. apply Z.log2_le_pow2; lia.
    - lia.
    - apply Z.land_nonneg. right. unfold mask32. lia. }
  apply Z.log2_le_pow2; [|exact Hlog].
  destruct (Z.eq_dec (rotr x n) 0) as [E|E]; [|lia].
  rewrite E in Hlog. change (Z.log2 0) with 0 in Hlog. lia.
Qed.

Lemma rotr_unmasked_above_word_witness :
  (0 <= 4 <= 32 /\ 2 ^ (32 + 4) <= 2 ^ 40)
  /\ 2 ^ 32 <= rotr (2 ^ 40) 4.
Proof.
  split; [lia|].
  exact (rotr_unmasked_above_word (2 ^ 40) 4 ltac:(lia) ltac:(lia)).
Defined.

(** X5. The four sigma functions map 32-bit words to 32-bit words. *)
Theorem sigma_words (x : Z) :
  word x ->
  word (sigma0_256 x) /\ word (sigma1_256 x)
  /\ word (sigma0_256_small x) /\ word (sigma1_256_small x).
Proof.
  intros Hx.
  unfold sigma0_256, sigma1_256, sigma0_256_small, sigma1_256_small.
  repeat split;
    repeat apply word_lxor;
    first [ apply word_rotr; [exact Hx | lia] | apply word_shr; [exact Hx | lia] ].
Qed.

Lemma sigma_words_witness :
  word 0x6a09e667
  /\ word (sigma0_256 0x6a09e667) /\ word (sigma1_256 0x6a09e667)
  /\ word (sigma0_256_small 0x6a09e667) /\ word (sigma1_256_small 0x6a09e667).
Proof.
  assert (Hx : word 0x6a09e667) by (unfold word; lia).
  split; [exact Hx|]. exact (sigma_words 0x6a09e667 Hx).
Defined.

(** ** padding and parse_message *)

Lemma byte_val_inj (a b : byte) : byte_val a = byte_val b -> a = b.
Proof. intros H. rewrite <- (byte_of_val a), <- (byte_of_val b), H. reflexivity. Qed.

Lemma from_bytes_4_inj (a0 a1 a2 a3 b0 b1 b2 b3 : byte) :
  from_bytes [a0; a1; a2; a3] = from_bytes [b0; b1; b2; b3] ->
  [a0; a1; a2; a3] = [b0; b1; b2; b3].
Proof.
  rewrite !from_bytes_4. intros H.
  pose proof (byte_val_range a0). pose proof (byte_val_range a1).
  pose proof (byte_val_range a2). pose proof (byte_val_range a3).
  pose proof (byte_val_range b0). pose proof (byte_val_range b1).
  pose proof (byte_val_range b2). pose proof (byte_val_range b3).
  assert (byte_val a0 = byte_val b0) by lia.
  assert (byte_val a1 = byte_val b1) by lia.
  assert (byte_val a2 = byte_val b2) by lia.
  assert (byte_val a3 = byte_val b3) by lia.
  repeat f_equal; apply byte_val_inj; assumption.
Qed.



(** X7. After [padding], [parse_message] yields [(n + 8) / 64 + 1] blocks for
    a message of [n] bytes: one block up to 55 bytes, two or more from 56
    bytes on. *)
Theorem padded_block_count (message padded : list byte) :
  padding message = Ok padded ->
  length (parse_message padded) = ((length message + 8) / 64 + 1)%nat
  /\ (length (parse_message padded) = 1%nat <-> (length message < 56)%nat).
Proof.
  intros Hpad.
  destruct (padded_length message padded Hpad) as [_ Hlen].
  assert (Hn : length (parse_message padded) = ((length message + 8) / 64 + 1)%nat).
  { rewrite length_parse_message. apply Nat2Z.inj.
    rewrite Nat2Z.inj_add, !Nat2Z.inj_div, !Nat2Z.inj_add.
    unfold len in Hlen. rewrite Hlen.
    change (Z.of_nat 63) with 63. change (Z.of_nat 64) with 64.
    change (Z.of_nat 8) with 8. change (Z.of_nat 1) with 1.
    pose proof (Nat2Z.is_nonneg (length message)).
    Z.div_mod_to_equations. lia. }
  split; [exact Hn|]. rewrite Hn.
  pose proof (Nat.div_mod_eq (length message + 8) 64) as Hd.
  pose proof (Nat.mod_upper_bound (length message + 8) 64 ltac:(lia)) as Hm.
  split; intros H.
  - assert (E : ((length message + 8) / 64 = 0)%nat) by lia. lia.
  - assert (E : ((length message + 8) / 64 = 0)%nat)
      by (apply Nat.div_small; lia). lia.
Qed.

Lemma padded_block_count_witness :
  padding nist_two_blocks
  = Ok (nist_two_blocks ++ [x80] ++ repeat x00 63 ++ repeat x00 6 ++ [x01; xc0])
  /\ length (parse_message
               (nist_two_blocks ++ [x80] ++ repeat x00 63 ++ repeat x00 6 ++ [x01; xc0]))
     = 2%nat.
Proof.
  assert (H : padding nist_two_blocks
              = Ok (nist_two_blocks ++ [x80] ++ repeat x00 63
                      ++ repeat x00 6 ++ [x01; xc0]))
    by (vm_compute; reflexivity).
  split; [exact H|].
  exact (proj1 (padded_block_count _ _ H)).
Defined.

Section ParseInjective.
Local Open Scope nat_scope.

(** Two lists of the same length, a multiple of 4, that agree on every
    aligned group of four elements are equal. *)
Lemma groups_of_4_eq {A : Type} (l1 l2 : list A) :
  length l1 = length l2 -> length l1 mod 4 = 0 ->
  (forall q, 4 * q + 4 <= length l1 ->
     take 4 (drop (4 * q) l1) = take 4 (drop (4 * q) l2)) ->
  l1 = l2.
Proof.
  intros Hlen Hmod Hgroups. apply list_eq. intros k.
  destruct (Nat.lt_ge_cases k (length l1)) as [Hk|Hk].
  - pose proof (Nat.div_mod_eq k 4) as Hd.
    pose proof (Nat.mod_upper_bound k 4 ltac:(lia)) as Hr.
    pose proof (Nat.div_mod_eq (length l1) 4) as Hd1.
    assert (Hq : 4 * (k / 4) + 4 <= length l1) by lia.
    rewrite Hd.
    rewrite <- (lookup_drop l1), <- (lookup_drop l2).
    rewrite <- (lookup_take_lt (drop (4 * (k / 4)) l1) 4) by exact Hr.
    rewrite <- (lookup_take_lt (drop (4 * (k / 4)) l2) 4) by exact Hr.
    rewrite (Hgroups (k / 4) Hq). reflexivity.
  - rewrite !lookup_ge_None_2 by lia. reflexivity.
Qed.

End ParseInjective.

(** X8. On byte sequences whose length is a multiple of 64 [parse_message]
    loses nothing: two such sequences with the same blocks are equal. *)
Theorem parse_message_injective (p1 p2 : list byte) :
  (length p1 mod 64 = 0)%nat -> (length p2 mod 64 = 0)%nat ->
  parse_message p1 = parse_message p2 -> p1 = p2.
Proof.
  intros H1 H2 Heq.
  pose proof (Nat.div_mod_eq (length p1) 64) as Hd1.
  pose proof (Nat.div_mod_eq (length p2) 64) as Hd2.
  assert (Hceil : forall n : nat, (n mod 64 = 0 -> (n + 63) / 64 = n / 64)%nat).
  { intros n Hn. pose proof (Nat.div_mod_eq n 64) as Hd.
    symmetry. apply (Nat.div_unique _ 64 _ 63%nat); lia. }
  assert (Hlen : length p1 = length p2).
  { pose proof (f_equal length Heq) as Hl.
    rewrite !length_parse_message, !Hceil in Hl by assumption. lia. }
  apply groups_of_4_eq; [exact Hlen | |].
  { rewrite Hd1, H1, Nat.add_0_r.
    replace (64 * (length p1 / 64))%nat with ((16 * (length p1 / 64)) * 4)%nat by lia.
    apply Nat.Div0.mod_mul. }
  intros q Hq.
  pose proof (Nat.div_mod_eq q 16) as Hdq.
  pose proof (Nat.mod_upper_bound q 16 ltac:(lia)) as Hj.
  set (i := (q / 16)%nat) in *. set (j := (q mod 16)%nat) in *.
  assert (Hi : (i < (length p1 + 63) / 64)%nat).
  { rewrite Hceil by exact H1. apply Nat.Div0.div_lt_upper_bound; lia. }
  pose proof (lookup_parse_message p1 i Hi) as L1.
  pose proof (lookup_parse_message p2 i ltac:(rewrite <- Hlen; exact Hi)) as L2.
  assert (Hwords : parse_words (take 64 (drop (64 * i) p2))
                   = parse_words (take 64 (drop (64 * i) p1))) by congruence.
  pose proof (lookup_parse_words (take 64 (drop (64 * i) p1)) j Hj) as W1.
  pose proof (lookup_parse_words (take 64 (drop (64 * i) p2)) j Hj) as W2.
  assert (Hw : from_bytes (take 4 (drop (4 * j) (take 64 (drop (64 * i) p2))))
               = from_bytes (take 4 (drop (4 * j) (take 64 (drop (64 * i) p1)))))
    by congruence.
  assert (Hb1 : (64 * i + 4 * j + 4 <= length p1)%nat) by lia.
  assert (Hb2 : (64 * i + 4 * j + 4 <= length p2)%nat) by lia.
  destruct (chunk_word_bytes p1 i j Hj) as [_ E1].
  destruct (chunk_word_bytes p2 i j Hj) as [_ E2].
  rewrite (E1 Hb1) in Hw. rewrite (E2 Hb2) in Hw.
  replace (4 * q)%nat with (64 * i + 4 * j)%nat by lia.
  destruct (take_4_drop p1 (64 * i + 4 * j) Hb1) as (a0 & a1 & a2 & a3 & _ & _ & _ & _ & T1).
  destruct (take_4_drop p2 (64 * i + 4 * j) Hb2) as (b0 & b1 & b2 & b3 & _ & _ & _ & _ & T2).
  rewrite T1, T2 in *. symmetry in Hw. apply from_bytes_4_inj in Hw. exact Hw.
Qed.

Lemma parse_message_injective_witness :
  ((length (repeat x61 64) mod 64 = 0)%nat /\ (length (repeat x61 64) mod 64 = 0)%nat
   /\ parse_message (repeat x61 64) = parse_message (repeat x61 64))
  /\ repeat x61 64 = repeat x61 64.
Proof.
  split; [repeat split|].
  exact (parse_message_injective (repeat x61 64) (repeat x61 64) eq_refl eq_refl eq_refl).
Defined.

(** X9. Whatever the input, [parse_message] returns one block for each
    started 64-byte chunk, every block has 16 words and every word is a
    32-bit word; it returns no block exactly on the empty input. *)
Theorem parse_message_shape (padded_message : list byte) :
  length (parse_message padded_message) = ((length padded_message + 63) / 64)%nat
  /\ Forall (fun block => length block = 16%nat /\ Forall word block)
       (parse_message padded_message)
  /\ (parse_message padded_message = [] <-> padded_message = []).
Proof.
  split; [apply length_parse_message|]. split.
  - rewrite parse_message_eq. apply Forall_fmap, Forall_forall. intros i _.
    split; [apply length_parse_words | apply parse_words_words].
  - split; intros H.
    + apply (f_equal length) in H. rewrite length_parse_message in H.
      cbn [length] in H. apply Nat.div_small_iff in H; [|lia].
      destruct padded_message; [reflexivity | cbn [length] in H; lia].
    + rewrite H. reflexivity.
Qed.

(** ** sha256_hash_computation and sha256 *)

Lemma for_each_app {A St : Type} (body : St -> A -> result St) (l1 l2 : list A) :
  forall s : St,
    for_each (l1 ++ l2) body s = (s' ← for_each l1 body s; for_each l2 body s').
Proof.
  induction l1 as [|x l1 IH]; intros s; [reflexivity|].
  cbn [app for_each]. destruct (body s x) as [s1|e]; [|reflexivity].
  rewrite !bind_Ok. apply IH.
Qed.

Lemma schedule_step_length (w : list Z) (u : nat) :
  (16 <= u)%nat -> (u - 2 < length w)%nat ->
  exists x : Z, schedule_step w u = Ok (w ++ [x]).
Proof.
  intros Hu Hlen. unfold schedule_step.
  rewrite (index_nth w (u - 15) 0), bind_Ok by lia.
  rewrite (index_nth w (u - 2) 0), bind_Ok by lia.
  rewrite (index_nth w (u - 16) 0), bind_Ok by lia.
  rewrite (index_nth w (u - 7) 0), bind_Ok by lia.
  eexists. reflexivity.
Qed.

(** With 15 words or more in the block the schedule loop never indexes past
    the end: each iteration reads at most the word before the one it appends. *)
Lemma schedule_loop_length (block : list Z) :
  (15 <= length block)%nat ->
  exists w : list Z,
    for_each (seq 16 48) schedule_step block = Ok w
    /\ length w = (length block + 48)%nat.
Proof.
  intros Hlen.
  destruct (for_each_seq_inv
              (fun u w => (length w + 16 = u + length block)%nat)
              schedule_step 48 16 block) as (w & E & Hw).
  - lia.
  - intros u w Hu Hinv.
    destruct (schedule_step_length w u ltac:(lia) ltac:(lia)) as [x Ex].
    exists (w ++ [x]). split; [exact Ex|]. rewrite length_app. cbn [length]. lia.
  - exists w. split; [exact E | lia].
Qed.

Lemma round_in_range (w : list Z) (v : working) (t : nat) :
  (t < 64)%nat -> (t < length w)%nat -> exists v' : working, round w v t = Ok v'.
Proof.
  intros Ht Hw. destruct v as [[[[[[[a b] c] d] e] f] g] h]. unfold round.
  rewrite (index_nth K_256 t 0), bind_Ok by (cbn [length K_256]; lia).
  rewrite (index_nth w t 0), bind_Ok by lia.
  eexists. reflexivity.
Qed.

Lemma round_past_schedule (w : list Z) (v : working) (t : nat) :
  (t < 64)%nat -> (length w <= t)%nat -> round w v t = Raise IndexError.
Proof.
  intros Ht Hw. destruct v as [[[[[[[a b] c] d] e] f] g] h]. unfold round.
  rewrite (index_nth K_256 t 0), bind_Ok by (cbn [length K_256]; lia).
  unfold index. rewrite lookup_ge_None_2 by exact Hw. reflexivity.
Qed.

Lemma rounds_in_range (w : list Z) (v : working) (n : nat) :
  (n <= 64)%nat -> (n <= length w)%nat ->
  exists v' : working, for_each (seq 0 n) (round w) v = Ok v'.
Proof.
  intros Hn Hw.
  destruct (for_each_seq_inv (fun _ _ => True) (round w) n 0 v I) as (v' & E & _).
  - intros u s Hu _.
    destruct (round_in_range w s u ltac:(lia) ltac:(lia)) as [s' Es].
    exists s'. split; [exact Es | exact I].
  - exists v'. exact E.
Qed.

Lemma compress_long_block (h block : list Z) :
  length h = 8%nat -> (16 <= length block)%nat ->
  exists h' : list Z,
    compress h block = Ok h' /\ length h' = 8%nat /\ Forall word h'.
Proof.
  intros Hh Hb.
  destruct h as [|s0 [|s1 [|s2 [|s3 [|s4 [|s5 [|s6 [|s7 [|]]]]]]]]];
    try discriminate Hh.
  destruct (schedule_loop_length block ltac:(lia)) as (w & Ew & Hw).
  destruct (rounds_in_range w (s0, s1, s2, s3, s4, s5, s6, s7) 64
              ltac:(lia) ltac:(lia)) as [[[[[[[[a b] c] d] e] f] g] hh] Er].
  eexists. split.
  - unfold compress. rewrite Ew, bind_Ok, Er, bind_Ok. apply add_loop.
  - split; [reflexivity|].
    repeat (apply Forall_cons; split; [apply word_mod|]). apply Forall_nil_2.
Qed.

Lemma compress_short_block (h block : list Z) :
  length h = 8%nat -> (length block < 16)%nat ->
  compress h block = Raise IndexError.
Proof.
  intros Hh Hb.
  destruct h as [|s0 [|s1 [|s2 [|s3 [|s4 [|s5 [|s6 [|s7 [|]]]]]]]]];
    try discriminate Hh.
  unfold compress.
  destruct (Nat.eq_dec (length block) 15%nat) as [H15|Hne].
  - destruct (schedule_loop_length block ltac:(lia)) as (w & Ew & Hw).
    rewrite Ew, bind_Ok.
    change (seq 0 64) with (seq 0 63 ++ [63%nat]). rewrite for_each_app.
    destruct (rounds_in_range w (s0, s1, s2, s3, s4, s5, s6, s7) 63
                ltac:(lia) ltac:(lia)) as [v Ev].
    rewrite Ev, bind_Ok. cbn [for_each].
    rewrite round_past_schedule by lia. reflexivity.
  - change (seq 16 48) with (16%nat :: seq 17 47). cbn [for_each].
    assert (Hstep : schedule_step block 16 = Raise IndexError).
    { unfold schedule_step, index.
      destruct (block !! (16 - 15)%nat); [|reflexivity].
      rewrite bind_Ok, (lookup_ge_None_2 block (16 - 2)) by (cbn; lia).
      reflexivity. }
    rewrite Hstep. reflexivity.
Qed.

(** X10. Called on its own, [sha256_hash_computation] returns [None] exactly
    when the list of blocks is empty. *)
Theorem sha256_hash_computation_none (message_blocks : list (list Z)) :
  sha256_hash_computation message_blocks = Ok None <-> message_blocks = [].
Proof.
  split.
  - destruct message_blocks as [|block rest]; [reflexivity|].
    rewrite sha256_hash_computation_cons.
    destruct (compress h_initial block); discriminate.
  - intros ->. reflexivity.
Qed.

(** X11. When the first block has 16 words or more, whatever integers they
    are, [sha256_hash_computation] returns a list of eight 32-bit words: no
    index is out of range and every word of the result has been masked. *)
Theorem sha256_hash_computation_state (block : list Z) (rest : list (list Z)) :
  (16 <= length block)%nat ->
  exists h : list Z,
    sha256_hash_computation (block :: rest) = Ok (Some h)
    /\ length h = 8%nat /\ Forall word h.
Proof.
  intros Hb.
  destruct (compress_long_block h_initial block eq_refl Hb) as (h & E & Hlen & Hw).
  exists h. rewrite sha256_hash_computation_cons, E.
  split; [reflexivity|]. split; assumption.
Qed.

Lemma sha256_hash_computation_state_witness :
  (16 <= length (repeat (-1)%Z 20))%nat
  /\ exists h : list Z,
       sha256_hash_computation [repeat (-1) 20] = Ok (Some h)
       /\ length h = 8%nat /\ Forall word h.
Proof.
  assert (H : (16 <= length (repeat (-1)%Z 20))%nat) by (cbn; lia).
  split; [exact H|].
  exact (sha256_hash_computation_state (repeat (-1) 20) [] H).
Defined.

(** X12. When the first block has fewer than 16 words the schedule or, with
    15 words, the last round indexes past the end of the schedule:
    [sha256_hash_computation] raises [IndexError]. *)
Theorem sha256_hash_computation_short_block (block : list Z) (rest : list (list Z)) :
  (length block < 16)%nat ->
  sha256_hash_computation (block :: rest) = Raise IndexError.
Proof.
  intros Hb. rewrite sha256_hash_computation_cons.
  rewrite (compress_short_block h_initial block eq_refl Hb). reflexivity.
Qed.

Lemma sha256_hash_computation_short_block_witness :
  (length (repeat 0 15) < 16)%nat
  /\ sha256_hash_computation [repeat 0 15] = Raise IndexError.
Proof.
  assert (H : (length (repeat 0 15) < 16)%nat) by (cbn; lia).
  split; [exact H|].
  exact (sha256_hash_computation_short_block (repeat 0 15) [] H).
Defined.

(** [sha256] reads the first 64 bytes of the padded message and nothing else. *)
Lemma sha256_first_chunk (message padded : list byte) :
  padding message = Ok padded ->
  sha256 message =
    (h ← compress h_initial (parse_words (take 64 padded));
     Ok (String.concat "" (map format_08x h))).
Proof.
  intros Hpad.
  destruct (sha256_padded message padded Hpad)
    as (block & rest & h0 & h1 & h2 & h3 & h4 & h5 & h6 & h7 & Hparse & _).
  assert (Hfirst : parse_message padded !! 0%nat
                   = Some (parse_words (take 64 (drop (64 * 0) padded)))).
  { apply lookup_parse_message. rewrite <- length_parse_message, Hparse.
    cbn [length]. lia. }
  rewrite Hparse in Hfirst.
  change ((block :: rest) !! 0%nat) with (Some block) in Hfirst.
  change (drop (64 * 0) padded) with padded in Hfirst.
  assert (Hblock : block = parse_words (take 64 padded)) by congruence.
  subst block.
  unfold sha256. rewrite Hpad, bind_Ok. cbv zeta.
  rewrite Hparse, sha256_hash_computation_cons.
  destruct (compress h_initial (parse_words (take 64 padded))); reflexivity.
Qed.

(** X13. Two messages of at least 64 bytes (and below 2^61 bytes) that share
    their first 64 bytes get the same value from [sha256]: nothing after the
    first block, not even the length, reaches the result. *)
Theorem sha256_same_first_64_bytes (m1 m2 : list byte) :
  (64 <= length m1)%nat -> (64 <= length m2)%nat ->
  len m1 < 2 ^ 61 -> len m2 < 2 ^ 61 ->
  take 64 m1 = take 64 m2 ->
  sha256 m1 = sha256 m2.
Proof.
  intros H1 H2 Hs1 Hs2 Htake.
  assert (Hpad : forall m : list byte, (64 <= length m)%nat -> len m < 2 ^ 61 ->
            exists padded, padding m = Ok padded /\ take 64 padded = take 64 m).
  { intros m Hm Hs. eexists. split.
    - rewrite padding_eq.
      destruct (Z.leb_spec (2 ^ 61) (len m)) as [Hbig|_]; [lia | reflexivity].
    - apply take_app_le. exact Hm. }
  destruct (Hpad m1 H1 Hs1) as (p1 & Hp1 & T1).
  destruct (Hpad m2 H2 Hs2) as (p2 & Hp2 & T2).
  rewrite (sha256_first_chunk m1 p1 Hp1), (sha256_first_chunk m2 p2 Hp2).
  rewrite T1, T2, Htake. reflexivity.
Qed.

Lemma sha256_same_first_64_bytes_witness :
  ((64 <= length (repeat x61 64 ++ encode "left"))%nat
   /\ (64 <= length (repeat x61 64 ++ encode "much longer right"))%nat
   /\ len (repeat x61 64 ++ encode "left") < 2 ^ 61
   /\ len (repeat x61 64 ++ encode "much longer right") < 2 ^ 61
   /\ take 64 (repeat x61 64 ++ encode "left")
      = take 64 (repeat x61 64 ++ encode "much longer right"))
  /\ sha256 (repeat x61 64 ++ encode "left")
     = sha256 (repeat x61 64 ++ encode "much longer right").
Proof.
  assert (H1 : (64 <= length (repeat x61 64 ++ encode "left"))%nat)
    by (cbn; lia).
  assert (H2 : (64 <= length (repeat x61 64 ++ encode "much longer right"))%nat)
    by (cbn; lia).
  assert (H3 : len (repeat x61 64 ++ encode "left") < 2 ^ 61) by reflexivity.
  assert (H4 : len (repeat x61 64 ++ encode "much longer right") < 2 ^ 61)
    by reflexivity.
  split; [repeat (split; [assumption|]); reflexivity|].
  exact (sha256_same_first_64_bytes _ _ H1 H2 H3 H4 eq_refl).
Defined.

(** X14. On a message shorter than 56 bytes the padded message is a single
    block, and [sha256] returns what folding the compression step over all
    the blocks returns. *)
Theorem sha256_single_block (message : list byte) :
  (length message < 56)%nat ->
  sha256 message = spec_digest message.
Proof.
  intros Hlen.
  assert (Hsmall : len message < 2 ^ 61) by (unfold len; lia).
  destruct (padding message) as [padded|e] eqn:Hpad.
  2:{ rewrite padding_eq in Hpad.
      destruct (Z.leb_spec (2 ^ 61) (len message)); [lia | discriminate]. }
  destruct (sha256_padded message padded Hpad)
    as (block & rest & h0 & h1 & h2 & h3 & h4 & h5 & h6 & h7
        & Hparse & Ec & _ & Hcomp & _).
  destruct (padded_length message padded Hpad) as [_ Hl].
  assert (Hone : length (parse_message padded) = 1%nat).
  { rewrite length_parse_message.
    assert (E : length padded = 64%nat).
    { unfold len in Hl. rewrite (Z.mod_small (55 - _) 64) in Hl by lia. lia. }
    rewrite E. reflexivity. }
  rewrite Hparse in Hone. destruct rest; [|discriminate Hone].
  unfold sha256, spec_digest, spec_fold_blocks.
  rewrite Hpad, !bind_Ok. cbv zeta.
  rewrite Hparse, sha256_hash_computation_cons. cbn [for_each].
  rewrite Ec, !bind_Ok. reflexivity.
Qed.

Lemma sha256_single_block_witness :
  (length (encode "abc") < 56)%nat
  /\ sha256 (encode "abc") = spec_digest (encode "abc").
Proof.
  assert (H : (length (encode "abc") < 56)%nat) by (cbn; lia).
  split; [exact H|].
  exact (sha256_single_block (encode "abc") H).
Defined.
